(** * 3DSE core: a shallow embedding of [_3dse_core.py] and of the dump
    batch of [gui_app.py], with the properties of its specification.

    Conventions of the embedding.
    - A Python [str] is a Rocq [string]; a character is an [ascii], read as a
      code point below 256.  In that range the regex class [\d] is exactly
      ['0'..'9'] and the blanks accepted by [int()] are 9..13, 32, 133, 160.
    - A raised exception is a value [Raise e] of the [result] type; [try] /
      [except] is [try_except].
    - A path is the list of its components; [os.path.join] is [++]. *)

From Stdlib Require Import List String Ascii ZArith Lia Bool Arith DecimalString.
Import ListNotations.

Set Implicit Arguments.
Set Warnings "-register-all".

(* ===================================================================== *)
(** ** Python values: exceptions and results                              *)
(* ===================================================================== *)

Module Py.

(** The exception classes the program can meet.  [RequestException] is
    [requests.exceptions.RequestException], [BadZipFile] is
    [zipfile.BadZipFile]; the remaining file-system errors are subclasses
    of [OSError]. *)
Inductive exn_kind : Type :=
| ValueError
| IndexError
| RequestException
| BadZipFile
| FileNotFoundError
| FileExistsError
| NotADirectoryError
| IsADirectoryError
| SameFileError
| OtherError.

Record exn : Type := Exn { kind : exn_kind; text : string }.

Inductive result (A : Type) : Type :=
| Ok (a : A)
| Raise (e : exn).

Arguments Ok {A} a.
Arguments Raise {A} e.

Definition bind {A B} (m : result A) (k : A -> result B) : result B :=
  match m with
  | Ok a => k a
  | Raise e => Raise e
  end.

Definition kind_eqb (a b : exn_kind) : bool :=
  match a, b with
  | ValueError, ValueError | IndexError, IndexError
  | RequestException, RequestException | BadZipFile, BadZipFile
  | FileNotFoundError, FileNotFoundError | FileExistsError, FileExistsError
  | NotADirectoryError, NotADirectoryError
  | IsADirectoryError, IsADirectoryError
  | SameFileError, SameFileError | OtherError, OtherError => true
  | _, _ => false
  end.

(** [try: body  except K as e: handler e]; other exceptions propagate. *)
Definition try_except {A} (body : result A) (k : exn_kind)
           (handler : exn -> result A) : result A :=
  match body with
  | Ok a => Ok a
  | Raise e => if kind_eqb (kind e) k then handler e else Raise e
  end.

(** A list comprehension [[f x for x in l]]: left to right, the first
    exception aborts it. *)
Fixpoint comprehension {A B} (f : A -> result B) (l : list A) : result (list B) :=
  match l with
  | [] => Ok []
  | x :: t =>
      match f x with
      | Ok y =>
          match comprehension f t with
          | Ok ys => Ok (y :: ys)
          | Raise e => Raise e
          end
      | Raise e => Raise e
      end
  end.

(** [l[i]]: raises [IndexError] out of range (indices here are never
    negative). *)
Definition getitem {A} (l : list A) (i : nat) : result A :=
  match nth_error l i with
  | Some x => Ok x
  | None => Raise (Exn IndexError "list index out of range")
  end.

End Py.

Import Py.

Declare Scope py_scope.
Delimit Scope py_scope with py.
Notation "x <- m ;; k" := (bind m (fun x => k))
  (at level 100, m at next level, right associativity) : py_scope.

(* ===================================================================== *)
(** ** Characters and the text primitives the program calls               *)
(* ===================================================================== *)

Module Text.

Definition code (c : ascii) : nat := nat_of_ascii c.

(** [\d] *)
Definition is_digit (c : ascii) : bool := (48 <=? code c) && (code c <=? 57).

(** [[^\d.]] *)
Definition noise (c : ascii) : bool := negb (is_digit c || Ascii.eqb c ".").

(** Blanks skipped by [int()] around a literal. *)
Definition int_space (c : ascii) : bool :=
  ((9 <=? code c) && (code c <=? 13)) || (code c =? 32)
  || (code c =? 133) || (code c =? 160).

(** Blanks removed by [str.strip()]. *)
Definition str_space (c : ascii) : bool :=
  int_space c || ((28 <=? code c) && (code c <=? 31)).

Fixpoint drop_while (p : ascii -> bool) (s : list ascii) : list ascii :=
  match s with
  | c :: t => if p c then drop_while p t else s
  | [] => []
  end.

Fixpoint span (p : ascii -> bool) (s : list ascii) : list ascii * list ascii :=
  match s with
  | c :: t =>
      if p c then let '(a, b) := span p t in (c :: a, b) else ([], s)
  | [] => ([], [])
  end.

(** [s.split('.')]: always at least one segment. *)
Fixpoint split_on (sep : ascii) (s : list ascii) : list (list ascii) :=
  match s with
  | [] => [[]]
  | c :: t =>
      if Ascii.eqb c sep then [] :: split_on sep t
      else match split_on sep t with
           | h :: r => (c :: h) :: r
           | [] => [[c]]
           end
  end.

(** *** [re.sub(r'^[^\d.]*|[^\d.]*$', '', s)]

    The scan starts at offset 0, where the first alternative always
    matches and greedily takes the leading run of [[^\d.]].  From then on
    [^] cannot match again and the second alternative matches at the
    first offset from which only [[^\d.]] characters remain (a final
    newline is itself such a character, so the [$] before it adds no
    match); that match reaches the end of the string.  Characters outside
    a match are copied. *)
Fixpoint sub_scan (s : list ascii) : list ascii :=
  match s with
  | [] => []
  | c :: t => if forallb noise s then [] else c :: sub_scan t
  end.

Definition re_sub_noise (s : list ascii) : list ascii :=
  sub_scan (drop_while noise s).

(** *** [int(x)] for a [str] argument, base 10

    Leading blanks, an optional sign, a run of digits in which single
    underscores may separate digits, trailing blanks, end of string.
    Anything else is a [ValueError], and so is a literal of more than
    [int_max_str_digits] digits (the interpreter's default limit). *)
Definition int_max_str_digits : nat := 4300.

Definition digit_or_underscore (c : ascii) : bool :=
  is_digit c || Ascii.eqb c "_".

(** No leading, trailing or doubled underscore, and not empty. *)
Fixpoint digit_run_ok (prev_underscore : bool) (run : list ascii) : bool :=
  match run with
  | [] => negb prev_underscore
  | c :: t =>
      if Ascii.eqb c "_" then negb prev_underscore && digit_run_ok true t
      else digit_run_ok false t
  end.

Fixpoint digits_value (acc : Z) (run : list ascii) : Z :=
  match run with
  | [] => acc
  | c :: t =>
      if is_digit c
      then digits_value (10 * acc + (Z.of_nat (code c) - 48)) t
      else digits_value acc t
  end.

Definition invalid_literal : exn :=
  Exn ValueError "invalid literal for int() with base 10".

Definition int_py (x : list ascii) : result Z :=
  let s1 := drop_while int_space x in
  let '(sign, s2) :=
    match s1 with
    | c :: r =>
        if Ascii.eqb c "+" then (1, r)
        else if Ascii.eqb c "-" then (-1, r)
        else (1, s1)
    | [] => (1, [])
    end%Z in
  let '(run, rest) := span digit_or_underscore s2 in
  match run with
  | [] => Raise invalid_literal
  | _ :: _ =>
      if negb (digit_run_ok true run) then Raise invalid_literal
      else if int_max_str_digits <? List.length (filter is_digit run)
      then Raise (Exn ValueError "Exceeds the limit for integer string conversion")
      else if negb (forallb int_space rest) then Raise invalid_literal
      else Ok (sign * digits_value 0 run)%Z
  end.

End Text.

Import Text.

(* ===================================================================== *)
(** ** Version comparator                                                 *)
(* ===================================================================== *)

Module Version.

Local Open Scope py_scope.

Definition parse_version (version_str : string) : result (list Z) :=
  try_except
    (let version_str := re_sub_noise (list_ascii_of_string version_str) in
     comprehension int_py (split_on "." version_str))
    ValueError
    (fun _ => Ok []).

(** The body of [for i in range(...)], over the list of indices still to
    visit. *)
Fixpoint compare_loop (local_parts latest_parts : list Z) (indices : list nat)
  : result Z :=
  match indices with
  | [] => Ok 0%Z
  | i :: rest =>
      local_part <-
        (if i <? List.length local_parts then getitem local_parts i else Ok 0%Z) ;;
      latest_part <-
        (if i <? List.length latest_parts then getitem latest_parts i else Ok 0%Z) ;;
      if (local_part <? latest_part)%Z then Ok (-1)%Z
      else if (local_part >? latest_part)%Z then Ok 1%Z
      else compare_loop local_parts latest_parts rest
  end.

Definition compare_versions (local_version latest_version : string) : result Z :=
  local_parts <- parse_version local_version ;;
  latest_parts <- parse_version latest_version ;;
  compare_loop local_parts latest_parts
    (seq 0 (Nat.max (List.length local_parts) (List.length latest_parts))).

End Version.

(* ===================================================================== *)
(** ** The file system                                                    *)
(* ===================================================================== *)

(** One tree stands for every mounted volume.  Links, permissions and time
    stamps are left out; a directory lists its entries in the order
    [os.listdir] and [os.walk] report them.

    The program addresses the card by a drive letter, so the volumes are
    those of Windows: a name reaches an entry whatever the case of its
    letters, and an entry keeps the name it was created with.  On the
    device the empty path is the empty string, which names nothing; an
    archive is addressed from the folder it was extracted to. *)

Module FS.

Local Open Scope py_scope.
Local Open Scope string_scope.
Local Open Scope list_scope.

Definition path : Type := list string.

Inductive node : Type :=
| File (data : string)
| Dir (entries : list (string * node)).

Definition path_str (p : path) : string := String.concat "/" p.

(** Upper-case letters, A to Z and the accented ones of Latin-1, read as
    their lower-case forms. *)
Definition fold_case (c : ascii) : ascii :=
  let n := code c in
  if ((65 <=? n)%nat && (n <=? 90)%nat)
     || ((192 <=? n)%nat && (n <=? 222)%nat && negb (Nat.eqb n 215))
  then ascii_of_nat (n + 32)
  else c.

Fixpoint casefold (s : string) : string :=
  match s with
  | EmptyString => EmptyString
  | String c r => String (fold_case c) (casefold r)
  end.

(** Two names of one entry. *)
Definition same_name (a b : string) : bool :=
  String.eqb (casefold a) (casefold b).

Fixpoint entry (name : string) (es : list (string * node)) : option node :=
  match es with
  | [] => None
  | (k, n) :: r => if same_name k name then Some n else entry name r
  end.

Fixpoint set_entry (name : string) (n : node) (es : list (string * node))
  : list (string * node) :=
  match es with
  | [] => [(name, n)]
  | (k, m) :: r =>
      if same_name k name then (k, n) :: r else (k, m) :: set_entry name n r
  end.

Definition remove_entry (name : string) (es : list (string * node))
  : list (string * node) :=
  filter (fun kn => negb (same_name (fst kn) name)) es.

Fixpoint lookup (p : path) (n : node) : option node :=
  match p with
  | [] => Some n
  | x :: p' =>
      match n with
      | Dir es =>
          match entry x es with
          | Some c => lookup p' c
          | None => None
          end
      | File _ => None
      end
  end.

Definition nonempty (p : path) : bool :=
  match p with [] => false | _ :: _ => true end.

(** [os.path.exists], [os.path.isdir], [os.path.isfile]: all three are
    false of the empty string. *)
Definition exists_ (p : path) (fs : node) : bool :=
  nonempty p && match lookup p fs with Some _ => true | None => false end.

Definition isdir (p : path) (fs : node) : bool :=
  nonempty p && match lookup p fs with Some (Dir _) => true | _ => false end.

Definition isfile (p : path) (fs : node) : bool :=
  nonempty p && match lookup p fs with Some (File _) => true | _ => false end.

(** [os.listdir] *)
Definition listdir (p : path) (fs : node) : result (list string) :=
  match lookup p fs with
  | Some (Dir es) => Ok (map fst es)
  | Some (File _) => Raise (Exn NotADirectoryError "Not a directory")
  | None => Raise (Exn FileNotFoundError "No such file or directory")
  end.

(** [os.makedirs(p, exist_ok=True)] *)
Fixpoint makedirs_from (p : path) (cur : option node) {struct p} : result node :=
  match p with
  | [] =>
      match cur with
      | Some (Dir es) => Ok (Dir es)
      | Some (File _) => Raise (Exn FileExistsError "File exists")
      | None => Ok (Dir [])
      end
  | x :: p' =>
      match cur with
      | Some (Dir es) =>
          c <- makedirs_from p' (entry x es) ;; Ok (Dir (set_entry x c es))
      | Some (File _) => Raise (Exn NotADirectoryError "Not a directory")
      | None => c <- makedirs_from p' None ;; Ok (Dir [(x, c)])
      end
  end.

Definition makedirs (p : path) (fs : node) : result node :=
  match p with
  | [] => Raise (Exn FileNotFoundError "No such file or directory")
  | _ :: _ => makedirs_from p (Some fs)
  end.

(** [open(p, 'wb')] followed by writing [data]: the parent must be a
    directory and [p] must not be one. *)
Fixpoint write_file (p : path) (data : string) (n : node) : result node :=
  match p with
  | [] =>
      match n with
      | File _ => Ok (File data)
      | Dir _ => Raise (Exn IsADirectoryError "Is a directory")
      end
  | x :: p' =>
      match n with
      | File _ => Raise (Exn NotADirectoryError "Not a directory")
      | Dir es =>
          match entry x es with
          | Some c =>
              c' <- write_file p' data c ;; Ok (Dir (set_entry x c' es))
          | None =>
              match p' with
              | [] => Ok (Dir (set_entry x (File data) es))
              | _ :: _ =>
                  Raise (Exn FileNotFoundError "No such file or directory")
              end
          end
      end
  end.

(** [shutil.copy2(src, dst)] where the source has already been read:
    [src] is what the source path holds and [name] its base name.  A
    destination that is a directory receives the file under [name]. *)
Definition copy2 (src : option node) (name : string) (dst : path) (fs : node)
  : result node :=
  let target := if isdir dst fs then dst ++ [name] else dst in
  match src with
  | Some (File data) => write_file target data fs
  | Some (Dir _) => Raise (Exn IsADirectoryError "Is a directory")
  | None => Raise (Exn FileNotFoundError "No such file or directory")
  end.

(** The two paths reach the same entry. *)
Fixpoint path_eqb (p q : path) : bool :=
  match p, q with
  | [], [] => true
  | x :: p', y :: q' => same_name x y && path_eqb p' q'
  | _, _ => false
  end.

(** [shutil.copy2(src, dst)] inside one tree: copying a file onto itself
    raises [SameFileError]. *)
Definition copy2_within (src dst : path) (fs : node) : result node :=
  let target :=
    if isdir dst fs then dst ++ [last src ""] else dst in
  if path_eqb src target && exists_ src fs
  then Raise (Exn SameFileError "are the same file")
  else copy2 (lookup src fs) (last src "") dst fs.

(** [shutil.rmtree(p)]: [p] must be a directory (the root of the model
    cannot be removed). *)
Fixpoint rmtree (p : path) (n : node) : result node :=
  match p with
  | [] => Raise (Exn OtherError "cannot remove the root")
  | x :: p' =>
      match n with
      | File _ => Raise (Exn NotADirectoryError "Not a directory")
      | Dir es =>
          match entry x es with
          | None => Raise (Exn FileNotFoundError "No such file or directory")
          | Some c =>
              match p' with
              | [] =>
                  match c with
                  | Dir _ => Ok (Dir (remove_entry x es))
                  | File _ => Raise (Exn NotADirectoryError "Not a directory")
                  end
              | _ :: _ => c' <- rmtree p' c ;; Ok (Dir (set_entry x c' es))
              end
          end
      end
  end.

(** [shutil.copytree(src, dst)]: [dst] must not exist; missing parents
    are created and the whole source tree is reproduced under [dst]. *)
Fixpoint put_from (p : path) (t : node) (cur : option node) {struct p}
  : result node :=
  match p with
  | [] =>
      match cur with
      | None => Ok t
      | Some _ => Raise (Exn FileExistsError "File exists")
      end
  | x :: p' =>
      match cur with
      | Some (Dir es) =>
          c <- put_from p' t (entry x es) ;; Ok (Dir (set_entry x c es))
      | Some (File _) => Raise (Exn NotADirectoryError "Not a directory")
      | None => c <- put_from p' t None ;; Ok (Dir [(x, c)])
      end
  end.

Definition copytree (src : option node) (dst : path) (fs : node) : result node :=
  match src with
  | Some (Dir es) => put_from dst (Dir es) (Some fs)
  | Some (File _) => Raise (Exn NotADirectoryError "Not a directory")
  | None => Raise (Exn FileNotFoundError "No such file or directory")
  end.

Definition is_file_node (n : node) : bool :=
  match n with File _ => true | Dir _ => false end.

(** [name in files] for the [files] that [os.walk] reports for a
    directory. *)
Definition in_files (name : string) (es : list (string * node)) : bool :=
  existsb (fun kn => String.eqb (fst kn) name && is_file_node (snd kn)) es.

(** The loop [for root, _, files in os.walk(top): if name in files: ...
    break]: directories are visited top-down, a directory before its
    sub-directories; the result is [os.path.join(root, name)]. *)
Fixpoint walk_find (name : string) (root : path) (n : node) {struct n}
  : option path :=
  match n with
  | File _ => None
  | Dir es =>
      if in_files name es then Some (root ++ [name])
      else
        (fix scan (l : list (string * node)) : option path :=
           match l with
           | [] => None
           | (k, c) :: r =>
               match walk_find name (root ++ [k]) c with
               | Some p => Some p
               | None => scan r
               end
           end) es
  end.

End FS.

Import FS.

(* ===================================================================== *)
(** ** Local inventory reader                                             *)
(* ===================================================================== *)

Module Inventory.

Local Open Scope list_scope.
Local Open Scope string_scope.

(** [open(p, 'r')] then reading: the decoded text of a regular file. *)
Definition open_read (p : path) (fs : node) : result string :=
  match lookup p fs with
  | Some (File data) => Ok data
  | Some (Dir _) => Raise (Exn IsADirectoryError "Is a directory")
  | None => Raise (Exn FileNotFoundError "No such file or directory")
  end.

Definition is_newline (c : ascii) : bool :=
  Nat.eqb (code c) 10 || Nat.eqb (code c) 13.

(** [f.readline()] without its line end (text mode ends a line at a line
    feed or a carriage return). *)
Definition readline (data : list ascii) : list ascii :=
  fst (span (fun c => negb (is_newline c)) data).

(** [s.strip()] *)
Definition strip (s : list ascii) : list ascii :=
  rev (drop_while str_space (rev (drop_while str_space s))).

(** The pattern [\d+\.\d+\.\d+] matched at the start of [s]: the text it
    matches.  Each [\d+] is greedy and is followed by a non-digit, so
    there is a single way to match. *)
Definition three_numbers (s : list ascii) : option (list ascii) :=
  let '(a, r1) := span is_digit s in
  match a, r1 with
  | _ :: _, c1 :: r2 =>
      if Ascii.eqb c1 "." then
        let '(b, r3) := span is_digit r2 in
        match b, r3 with
        | _ :: _, c2 :: r4 =>
            if Ascii.eqb c2 "." then
              let '(c, _) := span is_digit r4 in
              match c with
              | _ :: _ => Some (a ++ "."%char :: b ++ "."%char :: c)%list
              | [] => None
              end
            else None
        | _, _ => None
        end
      else None
  | _, _ => None
  end.

(** [re.search(r'v(\d+\.\d+\.\d+)', s)]: group 1 of the leftmost match. *)
Fixpoint search_version (s : list ascii) : option (list ascii) :=
  match s with
  | [] => None
  | c :: t =>
      if Ascii.eqb c "v" then
        match three_numbers t with
        | Some g => Some g
        | None => search_version t
        end
      else search_version t
  end.

Definition drive_not_found (drive_letter : path) : string :=
  "Error: Drive letter '" ++ path_str drive_letter ++ "' not found.".

Definition luma_dir_not_found (drive_letter : path) : string :=
  "Error: The 'luma' directory was not found on '"
    ++ path_str drive_letter ++ "'.".

Definition config_not_found (luma_config_path : path) : string :=
  "Error: The file '" ++ path_str luma_config_path
    ++ "' (config.ini) was not found.".

Definition get_local_luma_version (fs : node) (drive_letter : path)
  : option string * option string :=
  let luma_config_path := (drive_letter ++ ["luma"; "config.ini"])%list in
  if negb (exists_ drive_letter fs) then
    (None, Some (drive_not_found drive_letter))
  else if negb (isdir (drive_letter ++ ["luma"])%list fs) then
    (None, Some (luma_dir_not_found drive_letter))
  else if negb (exists_ luma_config_path fs) then
    (None, Some (config_not_found luma_config_path))
  else
    match open_read luma_config_path fs with
    | Ok data =>
        let first_line := strip (readline (list_ascii_of_string data)) in
        match search_version first_line with
        | Some g => (Some (string_of_list_ascii g), None)
        | None =>
            (None,
             Some "Error: The first line of config.ini does not contain the expected Luma3DS version format.")
        end
    | Raise e =>
        (None,
         Some ("Error reading config.ini or parsing version: " ++ text e))
    end.

Definition get_local_gm9_version (fs : node) (drive_letter : path)
  : option string * option string :=
  let gm9_payload_path :=
    (drive_letter ++ ["luma"; "payloads"; "GodMode9.firm"])%list in
  if negb (exists_ drive_letter fs) then
    (None, Some (drive_not_found drive_letter))
  else if negb (exists_ (drive_letter ++ ["luma"; "payloads"])%list fs) then
    (None,
     Some ("Error: The 'luma/payloads' directory was not found on '"
             ++ path_str drive_letter ++ "'."))
  else if negb (exists_ gm9_payload_path fs) then
    (Some "Not found",
     Some ("Error: The file '" ++ path_str gm9_payload_path
             ++ "' (GodMode9.firm) was not found."))
  else (Some "Installed", None).

End Inventory.

(* ===================================================================== *)
(** ** Release lookup                                                     *)
(* ===================================================================== *)

(** The reply of the release host is taken after JSON decoding, at the
    shape the API documents: a release with an optional [tag_name] and a list
    of assets, each with an optional [name] and [browser_download_url]
    ([None] is a key that is absent or null). *)

Module Release.

Local Open Scope list_scope.
Local Open Scope string_scope.

Record asset : Type :=
  Asset { name : option string; browser_download_url : option string }.

Record release : Type :=
  Release { tag_name : option string; assets : list asset }.

(** What [requests.get], [raise_for_status] and [json] give: a
    [RequestException], another exception, or the decoded release. *)
Inductive reply : Type :=
| RequestFails (e : string)
| OtherFailure (e : string)
| Latest (data : release).

Record release_info : Type :=
  ReleaseInfo { version : string; download_url : string }.

(** Truth value of an optional string: [None] and [""] are false. *)
Definition truthy (o : option string) : bool :=
  match o with
  | Some s => negb (String.eqb s "")
  | None => false
  end.

Fixpoint literal (lit s : list ascii) : option (list ascii) :=
  match lit, s with
  | [], _ => Some s
  | a :: lit', b :: s' => if Ascii.eqb a b then literal lit' s' else None
  | _ :: _, [] => None
  end.

(** [\d+], greedy. *)
Definition digits1 (s : list ascii) : option (list ascii) :=
  match span is_digit s with
  | (_ :: _, r) => Some r
  | ([], _) => None
  end.

Definition andThen (p q : list ascii -> option (list ascii)) (s : list ascii)
  : option (list ascii) :=
  match p s with
  | Some r => q r
  | None => None
  end.

Definition lit (l : string) : list ascii -> option (list ascii) :=
  literal (list_ascii_of_string l).

(** [.*] followed by the literal [l]: [.] is any character but a line
    feed. *)
Fixpoint any_then (l : list ascii) (s : list ascii) : option (list ascii) :=
  match literal l s with
  | Some r => Some r
  | None =>
      match s with
      | [] => None
      | c :: t => if Nat.eqb (code c) 10 then None else any_then l t
      end
  end.

Definition is_some {A} (o : option A) : bool :=
  match o with Some _ => true | None => false end.

(** [re.compile(r"Luma3DSv\d+\.\d+\.\d+\.zip").match(name)] *)
Definition luma_zip_pattern (asset_name : string) : bool :=
  is_some
    (andThen (lit "Luma3DSv")
      (andThen digits1 (andThen (lit ".")
        (andThen digits1 (andThen (lit ".")
          (andThen digits1 (lit ".zip"))))))
      (list_ascii_of_string asset_name)).

(** [re.compile(r"GodMode9-v\d+\.\d+\.\d+.*\.zip").match(name)] *)
Definition gm9_zip_pattern (asset_name : string) : bool :=
  is_some
    (andThen (lit "GodMode9-v")
      (andThen digits1 (andThen (lit ".")
        (andThen digits1 (andThen (lit ".")
          (andThen digits1 (any_then (list_ascii_of_string ".zip")))))))
      (list_ascii_of_string asset_name)).

Definition str (o : option string) : string :=
  match o with Some s => s | None => "" end.

(** The [for asset in ...] loop: the value of [download_url] after it. *)
Fixpoint scan_assets (pattern : string -> bool) (l : list asset) : option string :=
  match l with
  | [] => None
  | a :: r =>
      let asset_name := name a in
      if truthy asset_name && pattern (str asset_name)
      then browser_download_url a
      else scan_assets pattern r
  end.

Definition startswith_v (s : string) : bool :=
  match s with
  | String c _ => Ascii.eqb c "v"
  | EmptyString => false
  end.

Definition drop_first (s : string) : string :=
  match s with
  | String _ r => r
  | EmptyString => EmptyString
  end.

(** [tag_name and tag_name.startswith('v')] *)
Definition tag_ok (tag_name : option string) : bool :=
  truthy tag_name && startswith_v (str tag_name).

Section Lookup.

Variable pattern : string -> bool.
Variables tag_error asset_error parse_error connect_prefix : string.

Definition release_info_of (r : reply) : option release_info * option string :=
  match r with
  | RequestFails e =>
      (None,
       Some (connect_prefix ++ e ++ ". Please check your internet connection."))
  | OtherFailure e => (None, Some ("An unexpected error occurred: " ++ e))
  | Latest data =>
      let tag_name := tag_name data in
      let download_url := scan_assets pattern (assets data) in
      if tag_ok tag_name && truthy download_url then
        (Some (ReleaseInfo (drop_first (str tag_name)) (str download_url)),
         None)
      else if negb (tag_ok tag_name) then (None, Some tag_error)
      else if negb (truthy download_url) then (None, Some asset_error)
      else (None, Some parse_error)
  end.

End Lookup.

Definition luma_tag_error : string :=
  "Error: Could not find the latest Luma3DS version number on GitHub (tag_name missing or invalid).".
Definition luma_asset_error : string :=
  "Error: Could not find the Luma3DS ZIP file (pattern 'Luma3DSvX.Y.Z.zip') in the latest GitHub Release. The asset name might have changed.".
Definition gm9_tag_error : string :=
  "Error: Could not find the latest GodMode9 version number on GitHub (tag_name missing or invalid).".
Definition gm9_asset_error : string :=
  "Error: Could not find the GodMode9 ZIP file (pattern 'GodMode9-vX.Y.Z-*.zip') in the latest GitHub Release. The asset name might have changed.".

Definition get_latest_luma_release_info (r : reply)
  : option release_info * option string :=
  release_info_of luma_zip_pattern luma_tag_error luma_asset_error
    "An unexpected error occurred while parsing GitHub release data."
    "Error connecting to GitHub: " r.

Definition get_latest_gm9_release_info (r : reply)
  : option release_info * option string :=
  release_info_of gm9_zip_pattern gm9_tag_error gm9_asset_error
    "An unexpected error occurred while parsing GitHub release data for GodMode9."
    "Error connecting to GitHub for GodMode9: " r.

End Release.

(* ===================================================================== *)
(** ** Progress events and the effects of a long operation                *)
(* ===================================================================== *)

Module Progress.

Inductive severity : Type := info | warning | error | success.

(** One call [progress_callback(message, percent, severity)]. *)
Record event : Type :=
  Event { message : string; percent : Z; status : severity }.

End Progress.

Import Progress.

(** A long operation runs on the file system and on the sequence of
    progress events emitted so far; both survive an exception. *)

Module Run.

Record state : Type := State { disk : node; emitted : list event }.

Definition io (A : Type) : Type := state -> result A * state.

Definition ret {A} (a : A) : io A := fun s => (Ok a, s).

Definition raise {A} (e : exn) : io A := fun s => (Raise e, s).

Definition and_then {A B} (m : io A) (k : A -> io B) : io B :=
  fun s =>
    match m s with
    | (Ok a, s') => k a s'
    | (Raise e, s') => (Raise e, s')
    end.

Definition of_result {A} (r : result A) : io A := fun s => (r, s).

(** A file-system call that changes the tree. *)
Definition on_disk (f : node -> result node) : io unit :=
  fun s =>
    match f (disk s) with
    | Ok d => (Ok tt, State d (emitted s))
    | Raise e => (Raise e, s)
    end.

(** A file-system query. *)
Definition query {A} (f : node -> A) : io A := fun s => (Ok (f (disk s)), s).

(** [if progress_callback: progress_callback(msg, pct, sev)] *)
Definition callback (progress_callback : bool)
           (msg : string) (pct : Z) (sev : severity) : io unit :=
  fun s =>
    if progress_callback
    then (Ok tt, State (disk s) (emitted s ++ [Event msg pct sev]))
    else (Ok tt, s).

(** [try: body  except ... as e: handler e] with handlers for every
    exception. *)
Definition try_catch {A} (body : io A) (handler : exn -> io A) : io A :=
  fun s =>
    match body s with
    | (Ok a, s') => (Ok a, s')
    | (Raise e, s') => handler e s'
    end.

Fixpoint for_each {A} (l : list A) (body : A -> io unit) : io unit :=
  match l with
  | [] => ret tt
  | x :: r => and_then (body x) (fun _ => for_each r body)
  end.

End Run.

Import Run.

Declare Scope io_scope.
Delimit Scope io_scope with io.
Notation "x <- m ;; k" := (and_then m (fun x => k))
  (at level 100, m at next level, right associativity) : io_scope.
Notation "m ;; k" := (and_then m (fun _ => k))
  (at level 100, right associativity) : io_scope.

(* ===================================================================== *)
(** ** Update executors                                                   *)
(* ===================================================================== *)

(** What the download of the archive gives.  The scoped temporary
    directory is private to the call and apart from the device, so the
    archive is read from its own tree. *)

Module Net.

Inductive unzip : Type :=
| Unzips (entries : list (string * node))   (* the extracted tree *)
| BadZip                                    (* zipfile.BadZipFile *)
| UnzipFails (e : string).                  (* any other exception *)

Record response : Type :=
  Response {
      content_length : option string;  (* the header, when present *)
      body : list nat;                 (* lengths of the chunks iter_content yields *)
      broken : option string;          (* a RequestException ending the stream *)
      archive : unzip                  (* what the saved file extracts to *)
    }.

Inductive http : Type :=
| ConnectFails (e : string)    (* requests.get or raise_for_status raises *)
| Answers (r : response).

End Net.

Import Net.

Module Executor.

Local Open Scope list_scope.
Local Open Scope string_scope.
Local Open Scope io_scope.

Section Interpreter.

(** Floating point of the interpreter, kept abstract:
    [scaled_progress d t] is [int((d / t) * 50)] and [megabytes n] is
    the text of [n / (1024*1024)] with format [.2f]. *)
Variable scaled_progress : Z -> Z -> Z.
Variable megabytes : Z -> string.

(** [for chunk in response.iter_content(...)] *)
Fixpoint receive (progress_callback : bool) (total_size downloaded_size : Z)
         (chunks : list nat) : io Z :=
  match chunks with
  | [] => ret downloaded_size
  | chunk :: rest =>
      if Nat.eqb chunk 0 then
        receive progress_callback total_size downloaded_size rest
      else
        let downloaded_size := (downloaded_size + Z.of_nat chunk)%Z in
        (if progress_callback && (total_size >? 0)%Z then
           let progress := (scaled_progress downloaded_size total_size + 10)%Z in
           callback progress_callback
             ("Downloaded: " ++ megabytes downloaded_size ++ " MB of "
                ++ megabytes total_size ++ " MB")
             progress info
         else ret tt) ;;
        receive progress_callback total_size downloaded_size rest
  end.

(** [int(response.headers.get('content-length', 0))] *)
Definition advertised_size (response : response) : result Z :=
  match content_length response with
  | Some v => int_py (list_ascii_of_string v)
  | None => Ok 0%Z
  end.

(** Download and extraction, the same in both executors up to the
    component's name [label]; the result is the extracted tree. *)
Definition fetch_and_extract (label : string) (download : http)
           (progress_callback : bool) : io node :=
  callback progress_callback ("Downloading " ++ label ++ "...") 10 info ;;
  response <-
    match download with
    | ConnectFails e => raise (Exn RequestException e)
    | Answers r => ret r
    end ;;
  total_size <- of_result (advertised_size response) ;;
  _ <- receive progress_callback total_size 0 (body response) ;;
  match broken response with
  | Some e => raise (Exn RequestException e)
  | None => ret tt
  end ;;
  callback progress_callback (label ++ " archive downloaded.") 60 info ;;
  extract_path <-
    match archive response with
    | Unzips entries => ret (Dir entries)
    | BadZip => raise (Exn BadZipFile "File is not a zip file")
    | UnzipFails e => raise (Exn OtherError e)
    end ;;
  callback progress_callback (label ++ " archive extracted.") 70 info ;;
  ret extract_path.

(** The three [except] clauses, in their order. *)
Definition handlers (label : string) (progress_callback : bool) (e : exn)
  : io (bool * string) :=
  match kind e with
  | RequestException =>
      callback progress_callback ("Network error: " ++ text e) 0 error ;;
      ret (false, "Network error downloading " ++ label ++ ": " ++ text e)
  | BadZipFile =>
      callback progress_callback
        ("Error: Downloaded " ++ label ++ " ZIP is corrupted.") 0 error ;;
      ret (false, "The downloaded " ++ label ++ " ZIP file is corrupted.")
  | _ =>
      callback progress_callback
        ("An unexpected " ++ label ++ " error occurred: " ++ text e) 0 error ;;
      ret (false, "An unexpected error during " ++ label ++ " update: " ++ text e)
  end.

(** One of the two optional top-level files: copied to the device root
    when the archive has it, a warning otherwise. *)
Definition copy_top_level (extract_path : node) (sd_card_root : path)
           (name : string) (percent : Z) (progress_callback : bool) : io unit :=
  let src := [name] in
  let dest := (sd_card_root ++ [name])%list in
  if exists_ src extract_path then
    callback progress_callback ("Copying " ++ name ++ "...") percent info ;;
    on_disk (copy2 (lookup src extract_path) name dest)
  else
    callback progress_callback
      ("Warning: '" ++ name ++ "' not found in extracted Luma archive.")
      percent warning.

(** The files of the archive's luma/config, copied into the device's
    luma/config. *)
Definition update_luma_config (extract_path : node) (sd_card_luma_config_dir : path)
           (progress_callback : bool) : io unit :=
  let src_luma_config_dir := ["luma"; "config"] in
  if isdir src_luma_config_dir extract_path then
    callback progress_callback "Updating luma/config folder..." 85 info ;;
    on_disk (makedirs sd_card_luma_config_dir) ;;
    items <- of_result (listdir src_luma_config_dir extract_path) ;;
    for_each items (fun item =>
      let s := (src_luma_config_dir ++ [item])%list in
      let d := (sd_card_luma_config_dir ++ [item])%list in
      if isfile s extract_path
      then on_disk (copy2 (lookup s extract_path) item d)
      else ret tt)
  else
    callback progress_callback
      "Warning: Luma/config folder not found in release." 85 warning.

Definition download_and_inject_luma_update
           (drive_letter : path) (download : http) (progress_callback : bool)
  : io (bool * string) :=
  callback progress_callback "Starting Luma3DS update process..." 0 info ;;
  try_catch
    (extract_path <- fetch_and_extract "Luma3DS" download progress_callback ;;
     let sd_card_root := drive_letter in
     let sd_card_luma_config_dir := (drive_letter ++ ["luma"; "config"])%list in
     copy_top_level extract_path sd_card_root "boot.firm" 75 progress_callback ;;
     copy_top_level extract_path sd_card_root "boot.3dsx" 80 progress_callback ;;
     update_luma_config extract_path sd_card_luma_config_dir progress_callback ;;
     callback progress_callback "Luma3DS files successfully copied." 100 success ;;
     ret (true, "Luma3DS update successful."))
    (handlers "Luma3DS" progress_callback).

(** The body of [for item_name in os.listdir(src_gm9_folder)]. *)
Definition merge_item (extract_path : node) (src_gm9_folder dest_gm9_folder : path)
           (progress_callback : bool) (item_name : string) : io unit :=
  let src_item_path := (src_gm9_folder ++ [item_name])%list in
  let dest_item_path := (dest_gm9_folder ++ [item_name])%list in
  if String.eqb item_name "scripts" then
    callback progress_callback "Skipping gm9/scripts folder..." 85 info
  else if isdir src_item_path extract_path then
    present <- query (exists_ dest_item_path) ;;
    (if present then on_disk (rmtree dest_item_path) else ret tt) ;;
    on_disk (copytree (lookup src_item_path extract_path) dest_item_path)
  else if isfile src_item_path extract_path then
    on_disk (copy2 (lookup src_item_path extract_path) item_name dest_item_path)
  else ret tt.

Definition download_and_inject_gm9_update
           (drive_letter : path) (download : http) (progress_callback : bool)
  : io (bool * string) :=
  callback progress_callback "Starting GodMode9 update process..." 0 info ;;
  try_catch
    (extract_path <- fetch_and_extract "GodMode9" download progress_callback ;;
     let sd_card_root := drive_letter in
     let luma_payloads_dir := (sd_card_root ++ ["luma"; "payloads"])%list in
     on_disk (makedirs luma_payloads_dir) ;;
     match walk_find "GodMode9.firm" [] extract_path with
     | None =>
         ret (false,
              "Error: 'GodMode9.firm' not found in the extracted GodMode9 archive.")
     | Some src_gm9_firm =>
         let dest_gm9_firm := (luma_payloads_dir ++ ["GodMode9.firm"])%list in
         callback progress_callback "Copying GodMode9.firm..." 75 info ;;
         on_disk (copy2 (lookup src_gm9_firm extract_path) "GodMode9.firm"
                        dest_gm9_firm) ;;
         let src_gm9_folder := ["gm9"] in
         (if isdir src_gm9_folder extract_path then
            callback progress_callback "Updating gm9/ folder..." 80 info ;;
            let dest_gm9_folder := (sd_card_root ++ ["gm9"])%list in
            on_disk (makedirs dest_gm9_folder) ;;
            item_names <- of_result (listdir src_gm9_folder extract_path) ;;
            for_each item_names
              (merge_item extract_path src_gm9_folder dest_gm9_folder
                          progress_callback)
          else ret tt) ;;
         callback progress_callback "GodMode9 files successfully copied." 100 success ;;
         ret (true, "GodMode9 update successful.")
     end)
    (handlers "GodMode9" progress_callback).

End Interpreter.

End Executor.

(* ===================================================================== *)
(** ** File dumper and the dump batch of the GUI                          *)
(* ===================================================================== *)

Module Dump.

Local Open Scope list_scope.
Local Open Scope string_scope.
Local Open Scope io_scope.

(** A relative path written with [/], as the dump tables have it. *)
Definition components (p : string) : path :=
  map string_of_list_ascii (split_on "/" (list_ascii_of_string p)).

(** [os.path.basename] *)
Definition basename (p : string) : string := last (components p) "".

Definition dump_file (drive_letter : path) (source_path_on_sd : string)
           (destination_folder : path) (progress_callback : bool)
  : io (bool * string) :=
  let full_source_path := (drive_letter ++ components source_path_on_sd)%list in
  on_disk (makedirs destination_folder) ;;
  let file_name := basename source_path_on_sd in
  let full_destination_path := (destination_folder ++ [file_name])%list in
  callback progress_callback ("Starting dump of " ++ file_name ++ "...") 0 info ;;
  present <- query (exists_ full_source_path) ;;
  if negb present then
    callback progress_callback
      ("Error: Source file '" ++ file_name ++ "' not found on SD card.") 0 error ;;
    ret (false, "Error: Source file '" ++ path_str full_source_path ++ "' not found.")
  else
    try_catch
      (on_disk (copy2_within full_source_path full_destination_path) ;;
       callback progress_callback
         ("File '" ++ file_name ++ "' successfully dumped.") 100 success ;;
       ret (true,
            "File '" ++ file_name ++ "' successfully dumped to '"
              ++ path_str full_destination_path ++ "'."))
      (fun e =>
         callback progress_callback
           ("Error dumping '" ++ file_name ++ "': " ++ text e) 0 error ;;
         ret (false, "Error dumping '" ++ file_name ++ "': " ++ text e)).

(** An entry of [dump_options_data]. *)
Record file_info : Type := FileInfo { info_path : string; info_name : string }.



Definition str_of_nat (n : nat) : string := NilZero.string_of_uint (Nat.to_uint n).

(** What the worker hands to [_after_dump_finished]. *)
Record summary : Type :=
  Summary { successful_dumps : nat; total_files : nat; all_messages : list string }.

Section Interpreter.

(** Floating point of the interpreter, kept abstract:
    [half_way i n] is [int(((i + 0.5) / n) * 100)] and [full_way i n]
    is [int(((i + 1) / n) * 100)]. *)
Variables half_way full_way : nat -> nat -> Z.

(** The body of [for i, file_info in enumerate(files_to_dump)], over
    the files still to visit; an update posted to the GUI is an
    emitted event. *)
Fixpoint dump_loop (sd_card_drive target_folder : path) (total_files : nat)
         (i : nat) (files : list file_info)
         (successful_dumps : nat) (all_messages : list string)
  : io (nat * list string) :=
  match files with
  | [] => ret (successful_dumps, all_messages)
  | file_info :: rest =>
      let file_path_on_sd := info_path file_info in
      let file_display_name := info_name file_info in
      callback true
        ("Dumping '" ++ file_display_name ++ "' (" ++ str_of_nat (i + 1) ++ "/"
           ++ str_of_nat total_files ++ ")...")
        (half_way i total_files) info ;;
      r <- dump_file sd_card_drive file_path_on_sd target_folder false ;;
      let '(ok, message) := r in
      let all_messages :=
        (all_messages ++ [(file_display_name ++ ": " ++ message)%string])%list in
      if ok then
        callback true ("Dump of '" ++ file_display_name ++ "' successful.")
          (full_way i total_files) info ;;
        dump_loop sd_card_drive target_folder total_files (S i) rest
          (successful_dumps + 1) all_messages
      else
        callback true ("Dump of '" ++ file_display_name ++ "' failed.")
          (full_way i total_files) error ;;
        dump_loop sd_card_drive target_folder total_files (S i) rest
          successful_dumps all_messages
  end.

Definition _run_dump_in_thread (sd_card_drive target_folder : path)
           (files_to_dump : list file_info) : io summary :=
  let total_files := List.length files_to_dump in
  r <- dump_loop sd_card_drive target_folder total_files 0 files_to_dump 0 [] ;;
  let '(successful_dumps, all_messages) := r in
  let final_status_type :=
    if Nat.eqb successful_dumps total_files then success
    else if Nat.ltb 0 successful_dumps then warning else error in
  let final_message :=
    str_of_nat successful_dumps ++ " of " ++ str_of_nat total_files
      ++ " files successfully dumped." in
  callback true final_message 100 final_status_type ;;
  ret (Summary successful_dumps total_files all_messages).

End Interpreter.

End Dump.

Import Version Inventory Release Executor Dump.

(* ===================================================================== *)
(** ** The comparator as the specification words it                       *)
(* ===================================================================== *)

(** Written from section 4.1 of the specification, to be compared with
    [Version.compare_versions]: strip the leading and the trailing
    characters that are neither digit nor dot, split on the dot, read each
    segment as an integer (the whole version is [[]] when one does not
    read), pad the shorter sequence with zeros and answer at the first
    component that differs. *)

Module VersionSpec.

Definition strip_noise (s : list ascii) : list ascii :=
  rev (drop_while noise (rev (drop_while noise s))).

Fixpoint integers (segments : list (list ascii)) : option (list Z) :=
  match segments with
  | [] => Some []
  | seg :: rest =>
      match int_py seg, integers rest with
      | Ok z, Some zs => Some (z :: zs)
      | _, _ => None
      end
  end.

Definition version_of (s : string) : list Z :=
  match integers (split_on "." (strip_noise (list_ascii_of_string s))) with
  | Some parts => parts
  | None => []
  end.

Definition pad (n : nat) (parts : list Z) : list Z :=
  parts ++ repeat 0%Z (n - List.length parts).

(** On two sequences of the same length. *)
Fixpoint first_difference (a b : list Z) : Z :=
  match a, b with
  | x :: a', y :: b' =>
      if (x <? y)%Z then (-1)%Z
      else if (y <? x)%Z then 1%Z
      else first_difference a' b'
  | _, _ => 0%Z
  end.

Definition compare (a b : string) : Z :=
  let pa := version_of a in
  let pb := version_of b in
  let n := Nat.max (List.length pa) (List.length pb) in
  first_difference (pad n pa) (pad n pb).

(** The string does not parse: after stripping, some segment is not an
    integer. *)
Definition parsing_fails (m : string) : Prop :=
  exists seg e,
    In seg (split_on "." (re_sub_noise (list_ascii_of_string m)))
    /\ int_py seg = Raise e.

(** The string parses to the sequence [vs]. *)
Definition parses_to (v : string) (vs : list Z) : Prop :=
  comprehension int_py (split_on "." (re_sub_noise (list_ascii_of_string v)))
  = Ok vs.

(** Sign of the first component that is not zero, 0 when there is
    none. *)
Fixpoint leading_sign (vs : list Z) : Z :=
  match vs with
  | [] => 0%Z
  | x :: rest => if (x =? 0)%Z then leading_sign rest else Z.sgn x
  end.

End VersionSpec.

(* ===================================================================== *)
(** ** Vocabulary of the statements                                       *)
(* ===================================================================== *)

Module Vocabulary.

Local Open Scope string_scope.
Local Open Scope list_scope.

(** The asset's name matches the component's pattern (a missing or empty
    name matches nothing). *)
Definition asset_matches (pattern : string -> bool) (a : asset) : bool :=
  truthy (name a) && pattern (str (name a)).

(** [a] is the first asset of [l], in list order, that matches. *)
Definition first_match (pattern : string -> bool) (l : list asset) (a : asset)
  : Prop :=
  exists pre post,
    l = pre ++ a :: post
    /\ (forall b, In b pre -> asset_matches pattern b = false)
    /\ asset_matches pattern a = true.

(** [q] is a prefix of [p] (or [p] itself). *)
Fixpoint is_prefix (q p : path) : bool :=
  match q, p with
  | [], _ => true
  | y :: q', x :: p' => same_name y x && is_prefix q' p'
  | _ :: _, [] => false
  end.

(** One of the two paths lies on the other. *)
Definition comparable (q p : path) : bool := is_prefix q p || is_prefix p q.

Definition lookup_opt (q : path) (cur : option node) : option node :=
  match cur with
  | Some n => lookup q n
  | None => None
  end.

(** The tree holds a directory at [q]. *)
Definition dir_at (q : path) (n : node) : bool :=
  match lookup q n with Some (Dir _) => true | _ => false end.

(** The content of the regular file at [q], if there is one. *)
Definition file_at (q : path) (n : node) : option string :=
  match lookup q n with
  | Some (File data) => Some data
  | _ => None
  end.

(** The path [copy2] writes to. *)
Definition copy2_target (name : string) (dst : path) (fs : node) : path :=
  if isdir dst fs then dst ++ [name] else dst.

(** [Q] holds of the outcome of running [m] from [s]. *)
Definition wp {A} (m : io A) (Q : result A -> state -> Prop) (s : state) : Prop :=
  Q (fst (m s)) (snd (m s)).

Definition percents (l : list event) : list Z := map percent l.

Fixpoint nondecreasing (l : list Z) : bool :=
  match l with
  | x :: ((y :: _) as rest) => (x <=? y)%Z && nondecreasing rest
  | _ => true
  end.

(** Non-decreasing and bounded by [k]. *)
Definition ascending_to (k : Z) (l : list Z) : Prop :=
  nondecreasing l = true /\ Forall (fun x => x <= k)%Z l.

Section Reports.

Variable scaled_progress : Z -> Z -> Z.
Variable megabytes : Z -> string.

(** The events of the download loop. *)
Fixpoint reports (progress_callback : bool) (total_size downloaded_size : Z)
         (chunks : list nat) : list event :=
  match chunks with
  | [] => []
  | chunk :: rest =>
      if Nat.eqb chunk 0 then
        reports progress_callback total_size downloaded_size rest
      else
        let downloaded_size := (downloaded_size + Z.of_nat chunk)%Z in
        (if progress_callback && (total_size >? 0)%Z then
           [Event ("Downloaded: " ++ megabytes downloaded_size ++ " MB of "
                     ++ megabytes total_size ++ " MB")%string
                  (scaled_progress downloaded_size total_size + 10)%Z info]
         else [])
          ++ reports progress_callback total_size downloaded_size rest
  end.

(** The download reports of a whole download. *)
Definition progress_reports (download : http) (progress_callback : bool)
  : list event :=
  match download with
  | Answers r =>
      match advertised_size r with
      | Ok total_size => reports progress_callback total_size 0 (body r)
      | Raise _ => []
      end
  | ConnectFails _ => []
  end.

(** Everything download and extraction emit when they go through. *)
Definition fetch_log (label : string) (download : http) (progress_callback : bool)
  : list event :=
  if progress_callback then
    [Event ("Downloading " ++ label ++ "...")%string 10 info]
      ++ progress_reports download progress_callback
      ++ [Event (label ++ " archive downloaded.")%string 60 info;
          Event (label ++ " archive extracted.")%string 70 info]
  else [].

End Reports.

(** Some event of the log has severity [error]. *)
Definition has_error (l : list event) : Prop :=
  exists ev, In ev l /\ status ev = error.

(** The download reports keep to the band the source reserves for them:
    non-decreasing, between 10 and 60. *)
Definition download_in_band (scaled_progress : Z -> Z -> Z)
           (megabytes : Z -> string) (download : http) : Prop :=
  let ps := percents (progress_reports scaled_progress megabytes download true) in
  nondecreasing ps = true /\ Forall (fun p => 10 <= p <= 60)%Z ps.

(** The percents do not decrease, except that the log may end with one
    error event at percent 0. *)
Definition monotone_until_error (l : list event) : Prop :=
  exists pre tail,
    l = pre ++ tail
    /\ nondecreasing (percents pre) = true
    /\ (tail = [] \/ exists msg, tail = [Event msg 0 error]).

(** What [copy_top_level] emits: the copy or the warning. *)
Definition top_level_event (extract_path : node) (name : string) (pct : Z) : event :=
  if exists_ [name] extract_path
  then Event ("Copying " ++ name ++ "...")%string pct info
  else Event ("Warning: '" ++ name ++ "' not found in extracted Luma archive.")%string
             pct warning.

(** What [update_luma_config] emits. *)
Definition config_event (extract_path : node) : event :=
  if isdir ["luma"; "config"] extract_path
  then Event "Updating luma/config folder..." 85 info
  else Event "Warning: Luma/config folder not found in release." 85 warning.

(** A device and an extracted Luma3DS archive on which no copy can fail:
    the device root is a directory; no directory sits where a file is to be
    written; luma and luma/config are not regular files; the optional
    top-level entries of the archive, when present, are regular files. *)
Definition luma_ready (drive : path) (extract_path : node) (fs : node) : Prop :=
  isdir drive fs = true
  /\ isdir (drive ++ ["boot.firm"]) fs = false
  /\ isdir (drive ++ ["boot.3dsx"]) fs = false
  /\ file_at (drive ++ ["luma"]) fs = None
  /\ file_at (drive ++ ["luma"; "config"]) fs = None
  /\ (forall item,
         isfile ["luma"; "config"; item] extract_path = true ->
         isdir (drive ++ ["luma"; "config"; item]) fs = false)
  /\ isdir ["boot.firm"] extract_path = false
  /\ isdir ["boot.3dsx"] extract_path = false.

(** An event that is not the success event, and is below 100% when
    [band] holds. *)
Definition quiet (band : Prop) (ev : event) : Prop :=
  status ev <> success /\ (band -> (percent ev < 100)%Z).

Section SuccessfulRun.

Variable scaled_progress : Z -> Z -> Z.
Variable megabytes : Z -> string.

(** All that a successful Luma3DS update emits. *)
Definition luma_log (download : http) (extract_path : node) : list event :=
  [Event "Starting Luma3DS update process..." 0 info]
    ++ fetch_log scaled_progress megabytes "Luma3DS" download true
    ++ [top_level_event extract_path "boot.firm" 75;
        top_level_event extract_path "boot.3dsx" 80;
        config_event extract_path;
        Event "Luma3DS files successfully copied." 100 success].

End SuccessfulRun.

(** No child of the archive's gm9 folder is named scripts in another
    case of letters. *)
Definition scripts_plain (download : http) : Prop :=
  forall r0 es names item,
    download = Answers r0 -> archive r0 = Unzips es ->
    listdir ["gm9"] (Dir es) = Ok names -> In item names ->
    same_name item "scripts" = true -> item = "scripts".








End Vocabulary.

Import Vocabulary.

(* ===================================================================== *)
(** * Proofs                                                              *)
(* ===================================================================== *)

(** ** Version comparator *)

Section VersionFacts.

Import VersionSpec.

Lemma drop_while_app_all p (a b : list ascii) :
  forallb p a = true -> drop_while p (a ++ b) = drop_while p b.
Proof.
  induction a as [|c a IH]; simpl; [reflexivity|].
  intros H. apply andb_prop in H as [Hc Ha]. rewrite Hc. auto.
Qed.

Lemma drop_while_app_some p (a b : list ascii) :
  forallb p a = false -> drop_while p (a ++ b) = drop_while p a ++ b.
Proof.
  induction a as [|c a IH]; simpl; [discriminate|].
  destruct (p c) eqn:Hc; simpl; auto.
Qed.

Lemma forallb_rev (p : ascii -> bool) l : forallb p (rev l) = forallb p l.
Proof.
  induction l as [|c l IH]; simpl; [reflexivity|].
  rewrite forallb_app, IH. simpl. rewrite andb_true_r. apply andb_comm.
Qed.

Lemma drop_while_all p (l : list ascii) :
  forallb p l = true -> drop_while p l = [].
Proof.
  intros H. rewrite <- (app_nil_r l). rewrite drop_while_app_all; auto.
Qed.

(** The scan for the second alternative removes the trailing run. *)
Lemma sub_scan_rev l : sub_scan l = rev (drop_while noise (rev l)).
Proof.
  induction l as [|c l IH]; [reflexivity|].
  cbn [sub_scan rev].
  destruct (forallb noise (c :: l)) eqn:Hall.
  - rewrite drop_while_all; [reflexivity|].
    rewrite forallb_app, forallb_rev. simpl in Hall |- *.
    apply andb_prop in Hall as [Hc Hl]. rewrite Hc, Hl. reflexivity.
  - simpl in Hall. destruct (forallb noise l) eqn:Hl.
    + rewrite andb_true_r in Hall.
      rewrite drop_while_app_all by (rewrite forallb_rev; exact Hl).
      simpl. rewrite Hall. simpl.
      destruct l as [|d l']; [reflexivity|].
      simpl. simpl in Hl. rewrite Hl. reflexivity.
    + rewrite drop_while_app_some by (rewrite forallb_rev; exact Hl).
      rewrite rev_app_distr. simpl. rewrite <- IH.
      destruct l as [|d l']; [discriminate|]. reflexivity.
Qed.

Lemma re_sub_noise_strip s : re_sub_noise s = strip_noise s.
Proof. unfold re_sub_noise, strip_noise. apply sub_scan_rev. Qed.

Lemma int_py_value_error x e : int_py x = Raise e -> kind e = ValueError.
Proof.
  unfold int_py.
  destruct (drop_while int_space x) as [|c r].
  - destruct (span digit_or_underscore []) as [run rest] eqn:Hs.
    destruct run; [intros [= <-]; reflexivity|].
    repeat match goal with
           | |- (if ?b then _ else _) = _ -> _ => destruct b
           end; intros [= <-]; reflexivity.
  - destruct (Ascii.eqb c "+"); [|destruct (Ascii.eqb c "-")];
      match goal with
      | |- (let '(_, _) := span ?p ?l in _) = _ -> _ =>
          destruct (span p l) as [run rest]
      end;
      (destruct run; [intros [= <-]; reflexivity|]);
      repeat match goal with
             | |- (if ?b then _ else _) = _ -> _ => destruct b
             end; intros [= <-]; reflexivity.
Qed.

Lemma comprehension_integers segs :
  match integers segs with
  | Some vs => comprehension int_py segs = Ok vs
  | None => exists e, comprehension int_py segs = Raise e /\ kind e = ValueError
  end.
Proof.
  induction segs as [|seg rest IH]; simpl; [reflexivity|].
  destruct (int_py seg) as [z|e] eqn:Hseg.
  - destruct (integers rest) as [zs|].
    + rewrite IH. reflexivity.
    + destruct IH as (e & -> & He). eauto.
  - exists e. split; [reflexivity|]. eapply int_py_value_error; eauto.
Qed.

(** [parse_version] never raises, and computes the version of the
    specification. *)
Lemma parse_version_spec s : parse_version s = Ok (version_of s).
Proof.
  unfold parse_version, version_of, try_except.
  rewrite <- re_sub_noise_strip.
  pose proof (comprehension_integers
                (split_on "." (re_sub_noise (list_ascii_of_string s)))) as H.
  destruct (integers _) as [vs|].
  - rewrite H. reflexivity.
  - destruct H as (e & -> & ->). reflexivity.
Qed.

Lemma guarded_getitem (l : list Z) i :
  (if i <? List.length l then getitem l i else Ok 0%Z) = Ok (nth i l 0%Z).
Proof.
  destruct (i <? List.length l) eqn:Hi.
  - apply Nat.ltb_lt in Hi. unfold getitem.
    destruct (nth_error l i) as [x|] eqn:Hn.
    + erewrite nth_error_nth; eauto.
    + apply nth_error_None in Hn. lia.
  - apply Nat.ltb_ge in Hi. rewrite nth_overflow; auto.
Qed.

Lemma compare_loop_spec a b idx :
  compare_loop a b idx
  = Ok (first_difference (map (fun i => nth i a 0%Z) idx)
                         (map (fun i => nth i b 0%Z) idx)).
Proof.
  induction idx as [|i idx IH]; [reflexivity|].
  cbn [compare_loop map first_difference].
  rewrite !guarded_getitem. cbn [bind].
  destruct (nth i a 0 <? nth i b 0)%Z eqn:H1; [reflexivity|].
  rewrite Z.gtb_ltb.
  destruct (nth i b 0 <? nth i a 0)%Z; [reflexivity|]. exact IH.
Qed.

Lemma pad_nth n (l : list Z) :
  List.length l <= n -> pad n l = map (fun i => nth i l 0%Z) (seq 0 n).
Proof.
  intros Hn. unfold pad.
  apply nth_ext with (d := 0%Z) (d' := 0%Z).
  - rewrite length_app, repeat_length, length_map, length_seq. lia.
  - intros i Hi.
    rewrite length_app, repeat_length in Hi.
    assert (Hi' : i < n) by lia.
    transitivity (nth i l 0%Z).
    + destruct (Nat.lt_ge_cases i (List.length l)) as [Hl|Hl].
      * rewrite app_nth1 by lia. reflexivity.
      * rewrite app_nth2 by lia. rewrite nth_repeat.
        rewrite nth_overflow; auto.
    + symmetry.
      rewrite (nth_indep _ 0%Z ((fun i => nth i l 0%Z) n))
        by (rewrite length_map, length_seq; lia).
      etransitivity; [apply (map_nth (fun i => nth i l 0%Z))|].
      rewrite seq_nth by lia. reflexivity.
Qed.

Lemma compare_versions_spec a b : compare_versions a b = Ok (compare a b).
Proof.
  unfold compare_versions, compare.
  rewrite !parse_version_spec. cbn [bind].
  rewrite compare_loop_spec, <- !pad_nth by lia. reflexivity.
Qed.

Lemma first_difference_range a b :
  let r := first_difference a b in r = (-1)%Z \/ r = 0%Z \/ r = 1%Z.
Proof.
  revert b. induction a as [|x a IH]; intros [|y b]; simpl; auto.
  destruct (x <? y)%Z; auto. destruct (y <? x)%Z; auto.
Qed.

End VersionFacts.

Section MalformedVersions.

Import VersionSpec.

Lemma integers_fail segs seg e :
  In seg segs -> int_py seg = Raise e -> integers segs = None.
Proof.
  induction segs as [|s rest IH]; simpl; [tauto|].
  intros [->|Hin] Hraise.
  - rewrite Hraise. reflexivity.
  - rewrite (IH Hin Hraise). destruct (int_py s); reflexivity.
Qed.

Lemma parsing_fails_empty m : parsing_fails m -> version_of m = [].
Proof.
  intros (seg & e & Hin & Hraise). unfold version_of.
  rewrite <- re_sub_noise_strip.
  rewrite (integers_fail _ _ Hin Hraise). reflexivity.
Qed.

Lemma parses_to_version v vs : parses_to v vs -> version_of v = vs.
Proof.
  unfold parses_to, version_of. rewrite <- re_sub_noise_strip.
  pose proof (comprehension_integers
                (split_on "." (re_sub_noise (list_ascii_of_string v)))) as H.
  destruct (integers _) as [ws|].
  - rewrite H. intros [= ->]. reflexivity.
  - destruct H as (e & -> & _). discriminate.
Qed.

Lemma zeros_against vs :
  first_difference (repeat 0%Z (List.length vs)) vs = (- leading_sign vs)%Z.
Proof.
  induction vs as [|x vs IH]; [reflexivity|].
  cbn [List.length repeat first_difference leading_sign].
  destruct (0 <? x)%Z eqn:Hpos.
  - apply Z.ltb_lt in Hpos.
    replace (x =? 0)%Z with false by (symmetry; apply Z.eqb_neq; lia).
    rewrite Z.sgn_pos by lia. reflexivity.
  - destruct (x <? 0)%Z eqn:Hneg.
    + apply Z.ltb_lt in Hneg.
      replace (x =? 0)%Z with false by (symmetry; apply Z.eqb_neq; lia).
      rewrite Z.sgn_neg by lia. reflexivity.
    + apply Z.ltb_ge in Hpos, Hneg.
      replace (x =? 0)%Z with true by (symmetry; apply Z.eqb_eq; lia).
      exact IH.
Qed.

Lemma leading_sign_positive vs :
  Forall (fun x => 0 <= x)%Z vs -> Exists (fun x => 0 < x)%Z vs ->
  leading_sign vs = 1%Z.
Proof.
  induction 1 as [|x vs Hx Hvs IH]; intros Hex; [inversion Hex|].
  simpl. destruct (x =? 0)%Z eqn:H0.
  - apply Z.eqb_eq in H0. apply IH.
    inversion Hex; subst; [lia|assumption].
  - apply Z.eqb_neq in H0. apply Z.sgn_pos. lia.
Qed.

Lemma compare_malformed m v vs :
  parsing_fails m -> parses_to v vs ->
  compare_versions m v = Ok (- leading_sign vs)%Z.
Proof.
  intros Hm Hv. rewrite compare_versions_spec. unfold compare.
  rewrite (parsing_fails_empty Hm), (parses_to_version Hv).
  cbn [List.length Nat.max]. unfold pad.
  rewrite Nat.sub_diag, app_nil_r. cbn [app List.length].
  rewrite Nat.sub_0_r, zeros_against. reflexivity.
Qed.

End MalformedVersions.

Open Scope string_scope.
Open Scope list_scope.

(** C2.  [compare_versions] computes the comparison of the specification:
    each input loses its leading and trailing characters that are neither
    digit nor dot, is split on the dot and read as integers, and the two
    sequences are compared component by component, the shorter one padded
    with zeros, the answer being -1 or 1 at the first component that
    differs and 0 when none does.  In particular "1.2.3" is older than
    "1.2.4", "1.10.0" is newer than "1.9.9", "2.0" equals "2.0.0" and
    "v1.2.3-rc" equals "1.2.3". *)
Theorem compare_versions_refines_spec :
  (forall a b, compare_versions a b = Ok (VersionSpec.compare a b))
  /\ compare_versions "1.2.3" "1.2.4" = Ok (-1)%Z
  /\ compare_versions "1.10.0" "1.9.9" = Ok 1%Z
  /\ compare_versions "2.0" "2.0.0" = Ok 0%Z
  /\ compare_versions "v1.2.3-rc" "1.2.3" = Ok 0%Z.
Proof.
  split; [exact compare_versions_spec|].
  repeat split; vm_compute; reflexivity.
Qed.

(** C3, as stated, fails: "abc" does not parse, "0" parses to the
    non-empty sequence [0], and the comparison answers 0, not -1. *)
Lemma malformed_not_always_older :
  ~ (forall m v vs,
        VersionSpec.parsing_fails m -> VersionSpec.parses_to v vs -> vs <> [] ->
        compare_versions m v = Ok (-1)%Z).
Proof.
  intros H.
  assert (Hm : VersionSpec.parsing_fails "abc").
  { exists [], invalid_literal. split; [left|]; reflexivity. }
  assert (Hv : VersionSpec.parses_to "0" [0%Z]) by reflexivity.
  specialize (H "abc" "0" [0%Z] Hm Hv ltac:(discriminate)).
  vm_compute in H. discriminate H.
Qed.

(** C3, amended.  A string [m] that does not parse compares as a version of
    zeros: against a [v] that parses to [vs] the answer is the opposite of
    the sign of the first non-zero component of [vs].  So it is -1 when the
    components of [vs] are non-negative and one of them is positive, and 0
    when they are all zero. *)
Theorem malformed_compares_as_zeros (m v : string) (vs : list Z) :
  VersionSpec.parsing_fails m -> VersionSpec.parses_to v vs ->
  compare_versions m v = Ok (- VersionSpec.leading_sign vs)%Z
  /\ (Forall (fun x => 0 <= x)%Z vs -> Exists (fun x => 0 < x)%Z vs ->
      compare_versions m v = Ok (-1)%Z)
  /\ (Forall (fun x => x = 0%Z) vs -> compare_versions m v = Ok 0%Z).
Proof.
  intros Hm Hv. pose proof (compare_malformed Hm Hv) as H.
  split; [exact H|split].
  - intros Hnn Hex. rewrite H, (leading_sign_positive Hnn Hex). reflexivity.
  - intros Hz. rewrite H. f_equal.
    clear -Hz. induction Hz as [|x l -> _ IH]; [reflexivity|]. exact IH.
Qed.

Lemma malformed_compares_as_zeros_witness :
  compare_versions "1.x.3" "0.2" = Ok (-1)%Z.
Proof.
  refine (proj1 (proj2 (@malformed_compares_as_zeros "1.x.3" "0.2" [0; 2]%Z _ _)) _ _).
  - exists (list_ascii_of_string "x"), invalid_literal.
    split; [right; left|]; reflexivity.
  - reflexivity.
  - repeat constructor; lia.
  - right. left. lia.
Defined.

(** C10.  [compare_versions] is total on strings: it never raises and its
    answer is -1, 0 or 1; a segment that is not an integer makes
    [parse_version] return the empty sequence instead of raising. *)
Theorem compare_versions_total :
  (forall a b, exists r,
      compare_versions a b = Ok r /\ (r = (-1)%Z \/ r = 0%Z \/ r = 1%Z))
  /\ (forall s, exists parts, parse_version s = Ok parts)
  /\ (forall s, VersionSpec.parsing_fails s -> parse_version s = Ok []).
Proof.
  split; [|split].
  - intros a b. exists (VersionSpec.compare a b).
    split; [apply compare_versions_spec|apply first_difference_range].
  - intros s. eexists. apply parse_version_spec.
  - intros s Hs. rewrite parse_version_spec, (parsing_fails_empty Hs).
    reflexivity.
Qed.

Lemma compare_versions_total_witness : parse_version "1.x.3" = Ok [].
Proof.
  apply (proj2 (proj2 compare_versions_total)).
  exists (list_ascii_of_string "x"), invalid_literal.
  split; [right; left|]; reflexivity.
Defined.

(** ** Release lookup *)

Section LookupFacts.

Variable pattern : string -> bool.
Variables tag_error asset_error parse_error connect_prefix : string.

Let lookup_release :=
  release_info_of pattern tag_error asset_error parse_error connect_prefix.

Lemma scan_assets_none l :
  (forall a, In a l -> asset_matches pattern a = false) ->
  scan_assets pattern l = None.
Proof.
  induction l as [|a l IH]; intros H; [reflexivity|].
  simpl. fold (asset_matches pattern a).
  rewrite (H a (or_introl eq_refl)). apply IH.
  intros b Hb. apply H. right. exact Hb.
Qed.

Lemma scan_assets_first l a :
  first_match pattern l a -> scan_assets pattern l = browser_download_url a.
Proof.
  intros (pre & post & -> & Hpre & Ha).
  induction pre as [|b pre IH]; simpl.
  - fold (asset_matches pattern a). rewrite Ha. reflexivity.
  - fold (asset_matches pattern b).
    rewrite (Hpre b (or_introl eq_refl)). apply IH.
    intros c Hc. apply Hpre. right. exact Hc.
Qed.

Lemma scan_assets_some l url :
  scan_assets pattern l = Some url ->
  exists a, first_match pattern l a /\ browser_download_url a = Some url.
Proof.
  induction l as [|b l IH]; simpl; [discriminate|].
  fold (asset_matches pattern b).
  destruct (asset_matches pattern b) eqn:Hb.
  - intros Hurl. exists b. split; [|exact Hurl].
    exists [], l. repeat split; auto. intros c [].
  - intros Hurl. destruct (IH Hurl) as (a & (pre & post & -> & Hpre & Ha) & Hu).
    exists a. split; [|exact Hu].
    exists (b :: pre), post. repeat split; auto.
    intros c [<-|Hc]; auto.
Qed.

Lemma tag_ok_v tag : startswith_v tag = true -> tag_ok (Some tag) = true.
Proof. destruct tag; [discriminate|]. intros H. exact H. Qed.

Lemma lookup_no_asset data tag :
  tag_name data = Some tag -> startswith_v tag = true ->
  (forall a, In a (assets data) -> asset_matches pattern a = false) ->
  lookup_release (Latest data) = (None, Some asset_error).
Proof.
  intros Htag Hv Hnone. unfold lookup_release, release_info_of.
  rewrite Htag, (tag_ok_v _ Hv), (scan_assets_none _ Hnone). reflexivity.
Qed.

Lemma lookup_first_asset data tag a url :
  tag_name data = Some tag -> startswith_v tag = true ->
  first_match pattern (assets data) a ->
  browser_download_url a = Some url -> url <> "" ->
  lookup_release (Latest data) = (Some (ReleaseInfo (drop_first tag) url), None).
Proof.
  intros Htag Hv Hfirst Hurl Hne. unfold lookup_release, release_info_of.
  rewrite Htag, (tag_ok_v _ Hv), (scan_assets_first Hfirst), Hurl.
  simpl. apply String.eqb_neq in Hne. rewrite Hne. reflexivity.
Qed.

Lemma lookup_success_origin data info err :
  lookup_release (Latest data) = (Some info, err) ->
  exists a, first_match pattern (assets data) a
            /\ browser_download_url a = Some (download_url info).
Proof.
  unfold lookup_release, release_info_of.
  destruct (tag_ok (tag_name data)); simpl.
  - destruct (scan_assets pattern (assets data)) as [url|] eqn:Hscan; simpl.
    + destruct (String.eqb url ""); simpl; [discriminate|].
      intros [= <- _]. simpl. apply scan_assets_some. exact Hscan.
    + discriminate.
  - discriminate.
Qed.

End LookupFacts.

(** C7.  When the tag of the release is present and starts with 'v': a
    release none of whose asset names matches the component's pattern gives
    no release info and the asset-not-found error (which is not the tag
    error); when an asset matches, the first one in list order that does
    supplies the download URL, and a release info that is returned never
    carries the URL of another asset.  This holds for both lookups. *)
Theorem release_lookup_first_asset_wins (data : release) (tag : string) :
  tag_name data = Some tag -> startswith_v tag = true ->
  ((forall a, In a (assets data) -> asset_matches luma_zip_pattern a = false) ->
   get_latest_luma_release_info (Latest data) = (None, Some luma_asset_error))
  /\ ((forall a, In a (assets data) -> asset_matches gm9_zip_pattern a = false) ->
      get_latest_gm9_release_info (Latest data) = (None, Some gm9_asset_error))
  /\ (forall a url,
         first_match luma_zip_pattern (assets data) a ->
         browser_download_url a = Some url -> url <> "" ->
         get_latest_luma_release_info (Latest data)
         = (Some (ReleaseInfo (drop_first tag) url), None))
  /\ (forall a url,
         first_match gm9_zip_pattern (assets data) a ->
         browser_download_url a = Some url -> url <> "" ->
         get_latest_gm9_release_info (Latest data)
         = (Some (ReleaseInfo (drop_first tag) url), None))
  /\ (forall info err,
         get_latest_luma_release_info (Latest data) = (Some info, err) ->
         exists a, first_match luma_zip_pattern (assets data) a
                   /\ browser_download_url a = Some (download_url info))
  /\ (forall info err,
         get_latest_gm9_release_info (Latest data) = (Some info, err) ->
         exists a, first_match gm9_zip_pattern (assets data) a
                   /\ browser_download_url a = Some (download_url info))
  /\ luma_asset_error <> luma_tag_error
  /\ gm9_asset_error <> gm9_tag_error.
Proof.
  intros Htag Hv. unfold get_latest_luma_release_info, get_latest_gm9_release_info.
  repeat split.
  - apply lookup_no_asset with (tag := tag); assumption.
  - apply lookup_no_asset with (tag := tag); assumption.
  - intros a url. apply lookup_first_asset; assumption.
  - intros a url. apply lookup_first_asset; assumption.
  - apply lookup_success_origin.
  - apply lookup_success_origin.
  - discriminate.
  - discriminate.
Qed.

Lemma release_lookup_first_asset_wins_witness :
  get_latest_luma_release_info
    (Latest (Release (Some "v13.0.2")
               [Asset (Some "notes.txt") (Some "https://host/notes.txt");
                Asset (Some "Luma3DSv13.0.2.zip") (Some "https://host/a.zip");
                Asset (Some "Luma3DSv13.0.2.zip.sig") (Some "https://host/b.zip")]))
  = (Some (ReleaseInfo "13.0.2" "https://host/a.zip"), None).
Proof.
  refine (proj1 (proj2 (proj2
            (@release_lookup_first_asset_wins
               (Release (Some "v13.0.2") _) "v13.0.2" eq_refl eq_refl)))
            (Asset (Some "Luma3DSv13.0.2.zip") (Some "https://host/a.zip"))
            "https://host/a.zip" _ eq_refl _).
  - exists [Asset (Some "notes.txt") (Some "https://host/notes.txt")],
      [Asset (Some "Luma3DSv13.0.2.zip.sig") (Some "https://host/b.zip")].
    split; [reflexivity|]. split; [|reflexivity].
    intros b [<-|[]]. reflexivity.
  - discriminate.
Defined.

(** ** Local inventory reader *)

(** C8.  [get_local_luma_version] looks for the device root, then for the
    luma directory, then for config.ini, and stops at the first that is
    missing, with the error that names it.  Each of the three errors is
    returned in exactly one case: the error of the drive when the root is
    missing; the error of the directory when the root exists and luma is
    not a directory, whatever there is of config.ini; the error of the file
    when the root and the directory exist and config.ini does not.  No
    other path of the function returns one of them. *)
Theorem local_luma_checks_in_order (fs : node) (drive_letter : path) :
  let root := exists_ drive_letter fs in
  let folder := isdir (drive_letter ++ ["luma"]) fs in
  let file := exists_ (drive_letter ++ ["luma"; "config.ini"]) fs in
  let answer := get_local_luma_version fs drive_letter in
  (answer
   = (None, Some ("Error: Drive letter '" ++ path_str drive_letter ++ "' not found.")%string)
   <-> root = false)
  /\ (answer
      = (None, Some ("Error: The 'luma' directory was not found on '"
                       ++ path_str drive_letter ++ "'.")%string)
      <-> root = true /\ folder = false)
  /\ (answer
      = (None, Some ("Error: The file '"
                       ++ path_str (drive_letter ++ ["luma"; "config.ini"])%list
                       ++ "' (config.ini) was not found.")%string)
      <-> root = true /\ folder = true /\ file = false).
Proof.
  cbv zeta. unfold get_local_luma_version, drive_not_found, luma_dir_not_found,
            config_not_found.
  destruct (exists_ drive_letter fs); cbn [negb];
    [destruct (isdir (drive_letter ++ ["luma"]) fs); cbn [negb];
     [destruct (exists_ (drive_letter ++ ["luma"; "config.ini"]) fs); cbn [negb];
      [destruct (open_read _ fs) as [data|e];
       [destruct (search_version _)|]|]|]|].
  all: repeat split; try reflexivity; try discriminate.
  all: try (intros (? & ?); discriminate).
  all: try (intros (? & ? & ?); discriminate).
  all: intros H; exfalso; simpl in H; discriminate H.
Qed.

Lemma local_luma_checks_in_order_witness :
  get_local_luma_version
    (Dir [("E:", Dir [("boot.firm", File "x"); ("luma", File "not a folder")])]) ["E:"]
  = (None, Some "Error: The 'luma' directory was not found on 'E:'.").
Proof.
  exact (proj2 (proj1 (proj2 (@local_luma_checks_in_order
                                (Dir [("E:", Dir [("boot.firm", File "x");
                                                  ("luma", File "not a folder")])])
                                ["E:"])))
               (conj eq_refl eq_refl)).
Defined.

(** ** The file system *)

Section DirectoryEntries.

Lemma same_name_refl x : same_name x x = true.
Proof. apply String.eqb_refl. Qed.

Lemma same_name_sym x y : same_name x y = same_name y x.
Proof. apply String.eqb_sym. Qed.

Lemma same_name_fold x y : same_name x y = true -> casefold x = casefold y.
Proof. apply String.eqb_eq. Qed.

Lemma same_name_trans x y z :
  same_name x y = true -> same_name y z = same_name x z.
Proof. intros H. unfold same_name. rewrite (same_name_fold _ _ H). reflexivity. Qed.

(** Names of one entry find the same thing. *)
Lemma entry_same y x : same_name y x = true -> forall es, entry y es = entry x es.
Proof.
  intros H es. induction es as [|[k m] r IH]; simpl; [reflexivity|].
  rewrite (same_name_sym k y), <- (same_name_trans _ _ k H), (same_name_sym x k), IH.
  reflexivity.
Qed.

Lemma entry_set_eq x n es : entry x (set_entry x n es) = Some n.
Proof.
  induction es as [|[k m] r IH]; simpl.
  - rewrite same_name_refl. reflexivity.
  - destruct (same_name k x) eqn:E; simpl; rewrite E; auto.
Qed.

Lemma entry_set_ne x y n es :
  same_name y x = false -> entry y (set_entry x n es) = entry y es.
Proof.
  intros Hxy. induction es as [|[k m] r IH]; simpl.
  - rewrite same_name_sym, Hxy. reflexivity.
  - destruct (same_name k x) eqn:E; simpl.
    + rewrite <- (same_name_trans _ _ y E), same_name_sym, Hxy. reflexivity.
    + rewrite IH. reflexivity.
Qed.

Lemma entry_remove_ne x y es :
  same_name y x = false -> entry y (remove_entry x es) = entry y es.
Proof.
  intros Hxy. unfold remove_entry.
  induction es as [|[k m] r IH]; simpl; [reflexivity|].
  destruct (same_name k x) eqn:E; simpl.
  - rewrite <- (same_name_trans _ _ y E), same_name_sym, Hxy. exact IH.
  - rewrite IH. reflexivity.
Qed.


Lemma eqb_false_ne (x y : string) : String.eqb x y = false -> x <> y.
Proof. intros H ->. rewrite String.eqb_refl in H. discriminate. Qed.

Lemma same_name_ne (x y : string) : same_name x y = false -> x <> y.
Proof. intros H ->. rewrite same_name_refl in H. discriminate. Qed.

End DirectoryEntries.

Section Prefixes.

Lemma is_prefix_app c a b : is_prefix (c ++ a) (c ++ b) = is_prefix a b.
Proof.
  induction c as [|x c IH]; simpl; [reflexivity|].
  rewrite same_name_refl. exact IH.
Qed.


Lemma is_prefix_nil q : is_prefix q [] = true -> q = [].
Proof. destruct q; [reflexivity|discriminate]. Qed.

Lemma comparable_app c a b : comparable (c ++ a) (c ++ b) = comparable a b.
Proof. unfold comparable. rewrite !is_prefix_app. reflexivity. Qed.

Lemma is_prefix_longer q p x r : is_prefix q p = false -> is_prefix q (p ++ x :: r) = true ->
                                 is_prefix p q = true.
Proof.
  revert p. induction q as [|y q IH]; intros [|z p]; simpl; try discriminate.
  - reflexivity.
  - destruct (same_name y z) eqn:E; simpl; [|discriminate].
    rewrite same_name_sym, E. simpl. apply IH.
Qed.

Lemma nonempty_app p x r : nonempty (p ++ x :: r) = true.
Proof. destruct p; reflexivity. Qed.

(** The three tests at a path that is not empty are what the tree holds
    there. *)
Lemma exists_at p x r fs :
  exists_ (p ++ x :: r) fs
  = match lookup (p ++ x :: r) fs with Some _ => true | None => false end.
Proof. unfold exists_. rewrite nonempty_app. reflexivity. Qed.

Lemma isdir_at p x r fs :
  isdir (p ++ x :: r) fs
  = match lookup (p ++ x :: r) fs with Some (Dir _) => true | _ => false end.
Proof. unfold isdir. rewrite nonempty_app. reflexivity. Qed.

Lemma isfile_at p x r fs :
  isfile (p ++ x :: r) fs
  = match lookup (p ++ x :: r) fs with Some (File _) => true | _ => false end.
Proof. unfold isfile. rewrite nonempty_app. reflexivity. Qed.

Lemma isdir_true p fs :
  isdir p fs = true -> p <> [] /\ exists es, lookup p fs = Some (Dir es).
Proof.
  unfold isdir. destruct p as [|x p]; [discriminate|]. cbn [nonempty andb].
  destruct (lookup (x :: p) fs) as [[d|es]|]; try discriminate.
  split; [discriminate|eauto].
Qed.

Lemma isdir_of_lookup p fs es : p <> [] -> lookup p fs = Some (Dir es) -> isdir p fs = true.
Proof.
  intros Hp H. unfold isdir. rewrite H. destruct p; [contradiction|reflexivity].
Qed.

Lemma exists_true p fs :
  exists_ p fs = true -> p <> [] /\ exists n, lookup p fs = Some n.
Proof.
  unfold exists_. destruct p as [|x p]; [discriminate|]. cbn [nonempty andb].
  destruct (lookup (x :: p) fs) as [n|]; try discriminate.
  split; [discriminate|eauto].
Qed.

End Prefixes.

Ltac name_cases y x :=
  let E := fresh "E" in
  let Es := fresh "Es" in
  destruct (same_name y x) eqn:E;
  [pose proof (entry_same _ _ E) as Es; rewrite ?Es | ].

Section WriteFile.

Lemma write_file_frame p : forall d n n' q,
    write_file p d n = Ok n' -> is_prefix q p = false -> lookup q n' = lookup q n.
Proof.
  induction p as [|x p IH]; intros d n n' q Hw Hq.
  - destruct q; [discriminate|]. simpl in Hw.
    destruct n; [|discriminate]. injection Hw as <-. reflexivity.
  - destruct q as [|y q]; [discriminate|]. simpl in Hq.
    simpl in Hw. destruct n as [|es]; [discriminate|].
    destruct (entry x es) as [c|] eqn:Hc.
    + destruct (write_file p d c) as [c'|e] eqn:Hwc; simpl in Hw; [|discriminate].
      injection Hw as <-. simpl. name_cases y x.
      * rewrite entry_set_eq, Hc. simpl in Hq. eapply IH; eauto.
      * rewrite entry_set_ne by congruence. reflexivity.
    + destruct p; [|discriminate]. injection Hw as <-. simpl. name_cases y x.
      * rewrite entry_set_eq, Hc. simpl in Hq.
        destruct q; [discriminate|]. reflexivity.
      * rewrite entry_set_ne by congruence. reflexivity.
Qed.

Lemma write_file_at p : forall d n n',
    write_file p d n = Ok n' -> lookup p n' = Some (File d).
Proof.
  induction p as [|x p IH]; intros d n n' Hw; simpl in Hw.
  - destruct n; [|discriminate]. injection Hw as <-. reflexivity.
  - destruct n as [|es]; [discriminate|].
    destruct (entry x es) as [c|] eqn:Hc.
    + destruct (write_file p d c) as [c'|e] eqn:Hwc; simpl in Hw; [|discriminate].
      injection Hw as <-. simpl. rewrite entry_set_eq. eauto.
    + destruct p; [|discriminate]. injection Hw as <-. simpl.
      rewrite entry_set_eq. reflexivity.
Qed.

Lemma write_file_dirs p : forall d n n' q,
    write_file p d n = Ok n' -> dir_at q n' = dir_at q n.
Proof.
  unfold dir_at.
  induction p as [|x p IH]; intros d n n' q Hw; simpl in Hw.
  - destruct n; [|discriminate]. injection Hw as <-.
    destruct q; reflexivity.
  - destruct n as [|es]; [discriminate|].
    destruct (entry x es) as [c|] eqn:Hc.
    + destruct (write_file p d c) as [c'|e] eqn:Hwc; simpl in Hw; [|discriminate].
      injection Hw as <-. destruct q as [|y q]; [reflexivity|].
      simpl. name_cases y x.
      * rewrite entry_set_eq, Hc. eapply IH; eauto.
      * rewrite entry_set_ne by congruence. reflexivity.
    + destruct p; [|discriminate]. injection Hw as <-.
      destruct q as [|y q]; [reflexivity|]. simpl. name_cases y x.
      * rewrite entry_set_eq, Hc. destruct q; reflexivity.
      * rewrite entry_set_ne by congruence. reflexivity.
Qed.

Lemma isdir_dir_at q n : isdir q n = nonempty q && dir_at q n.
Proof. reflexivity. Qed.

Lemma write_file_isdir p : forall d n n' q,
    write_file p d n = Ok n' -> isdir q n' = isdir q n.
Proof.
  intros d n n' q Hw. rewrite !isdir_dir_at, (write_file_dirs _ _ _ q Hw). reflexivity.
Qed.

Lemma write_file_under par : forall x d n,
    dir_at par n = true -> dir_at (par ++ [x]) n = false ->
    exists n', write_file (par ++ [x]) d n = Ok n'.
Proof.
  unfold dir_at.
  induction par as [|z par IH]; intros x d n Hpar Hx; simpl in *.
  - destruct n as [|es]; [discriminate|].
    destruct (entry x es) as [[data|sub]|]; try discriminate; simpl; eauto.
  - destruct n as [|es]; [discriminate|].
    destruct (entry z es) as [c|]; [|discriminate].
    destruct (IH x d c Hpar Hx) as (c' & ->). simpl. eauto.
Qed.

Lemma write_file_ok par : forall x d n,
    isdir par n = true -> isdir (par ++ [x]) n = false ->
    exists n', write_file (par ++ [x]) d n = Ok n'.
Proof.
  intros x d n Hpar Hx. apply write_file_under.
  - rewrite isdir_dir_at in Hpar. apply andb_prop in Hpar. apply Hpar.
  - rewrite isdir_dir_at, nonempty_app in Hx. exact Hx.
Qed.

Lemma path_eqb_refl p : path_eqb p p = true.
Proof. induction p as [|x p IH]; simpl; [reflexivity|]. rewrite same_name_refl. exact IH. Qed.

Lemma path_eqb_app c a b : path_eqb (c ++ a) (c ++ b) = path_eqb a b.
Proof.
  induction c as [|x c IH]; simpl; [reflexivity|]. rewrite same_name_refl. exact IH.
Qed.


Lemma path_eqb_ne p q : path_eqb p q = false -> p <> q.
Proof. intros H ->. rewrite path_eqb_refl in H. discriminate. Qed.

(** Paths that reach the same entry find the same thing. *)
Lemma lookup_same : forall p q n, path_eqb p q = true -> lookup p n = lookup q n.
Proof.
  induction p as [|x p IH]; intros [|y q] n; simpl; try discriminate; [reflexivity|].
  intros H. apply andb_prop in H as [Hxy Hpq].
  destruct n as [d|es]; [reflexivity|].
  rewrite (entry_same _ _ Hxy). destruct (entry y es); [apply IH; exact Hpq|reflexivity].
Qed.

(** A file that is not the one written keeps its content. *)
Lemma write_file_others p : forall d n n' q,
    write_file p d n = Ok n' -> path_eqb q p = false -> file_at q n' = file_at q n.
Proof.
  unfold file_at.
  induction p as [|x p IH]; intros d n n' q Hw Hq; simpl in Hw.
  - destruct n; [|discriminate]. injection Hw as <-.
    destruct q; [discriminate|reflexivity].
  - destruct n as [|es]; [discriminate|].
    destruct (entry x es) as [c|] eqn:Hc.
    + destruct (write_file p d c) as [c'|e] eqn:Hwc; simpl in Hw; [|discriminate].
      injection Hw as <-. destruct q as [|y q]; [reflexivity|].
      simpl in Hq |- *. name_cases y x.
      * rewrite entry_set_eq, Hc. simpl in Hq. eapply IH; eauto.
      * rewrite entry_set_ne by congruence. reflexivity.
    + destruct p; [|discriminate]. injection Hw as <-.
      destruct q as [|y q]; [reflexivity|]. simpl in Hq |- *. name_cases y x.
      * rewrite entry_set_eq, Hc. simpl in Hq. destruct q; [discriminate|reflexivity].
      * rewrite entry_set_ne by congruence. reflexivity.
Qed.

End WriteFile.

Section MakeDirs.

Lemma makedirs_frame p : forall cur n' q,
    makedirs_from p cur = Ok n' -> is_prefix q p = false ->
    lookup q n' = lookup_opt q cur.
Proof.
  induction p as [|x p IH]; intros cur n' q Hm Hq.
  - destruct q as [|y q]; [discriminate|]. simpl in Hm.
    destruct cur as [[d|es]|]; try discriminate; injection Hm as <-; reflexivity.
  - destruct q as [|y q]; [discriminate|]. simpl in Hq, Hm.
    destruct cur as [[d|es]|]; try discriminate.
    + destruct (makedirs_from p (entry x es)) as [c|e] eqn:Hc; simpl in Hm;
        [|discriminate].
      injection Hm as <-. simpl. name_cases y x.
      * rewrite entry_set_eq. simpl in Hq. rewrite (IH _ _ _ Hc Hq).
        destruct (entry x es); reflexivity.
      * rewrite entry_set_ne by congruence. reflexivity.
    + destruct (makedirs_from p None) as [c|e] eqn:Hc; simpl in Hm; [|discriminate].
      injection Hm as <-. simpl. rewrite same_name_sym. name_cases y x.
      * simpl in Hq. rewrite (IH _ _ _ Hc Hq). reflexivity.
      * reflexivity.
Qed.

Lemma makedirs_dir_self p : forall cur n',
    makedirs_from p cur = Ok n' -> dir_at p n' = true.
Proof.
  unfold dir_at.
  induction p as [|x p IH]; intros cur n' Hm; simpl in Hm.
  - destruct cur as [[d|es]|]; try discriminate; injection Hm as <-; reflexivity.
  - destruct cur as [[d|es]|]; try discriminate.
    + destruct (makedirs_from p (entry x es)) as [c|e] eqn:Hc; simpl in Hm;
        [|discriminate].
      injection Hm as <-. simpl. rewrite entry_set_eq. eauto.
    + destruct (makedirs_from p None) as [c|e] eqn:Hc; simpl in Hm; [|discriminate].
      injection Hm as <-. simpl. rewrite same_name_refl. eauto.
Qed.

(** [makedirs] succeeds on a path that is not empty only. *)
Lemma makedirs_success p fs fs' :
  makedirs p fs = Ok fs' -> p <> [] /\ makedirs_from p (Some fs) = Ok fs'.
Proof.
  unfold makedirs. destruct p; [discriminate|]. intros H. split; [discriminate|exact H].
Qed.

Lemma makedirs_isdir_self p : forall fs fs',
    makedirs p fs = Ok fs' -> isdir p fs' = true.
Proof.
  intros fs fs' H. apply makedirs_success in H as [Hp H].
  rewrite isdir_dir_at, (makedirs_dir_self _ _ H).
  destruct p; [contradiction|reflexivity].
Qed.



Lemma makedirs_ok p : forall cur,
    (forall q d, is_prefix q p = true -> lookup_opt q cur <> Some (File d)) ->
    exists n', makedirs_from p cur = Ok n'.
Proof.
  induction p as [|x p IH]; intros cur H; simpl.
  - destruct cur as [[d|es]|]; eauto.
    exfalso. apply (H [] d); reflexivity.
  - destruct cur as [[d|es]|].
    + exfalso. apply (H [] d); reflexivity.
    + destruct (IH (entry x es)) as (c & ->); [|simpl; eauto].
      intros q d Hq. specialize (H (x :: q) d). simpl in H.
      rewrite same_name_refl in H. specialize (H Hq).
      destruct (entry x es); [exact H|discriminate].
    + destruct (IH None) as (c & ->); [|simpl; eauto].
      intros q d _. discriminate.
Qed.

(** [makedirs] creates directories only: regular files stay as they are. *)
Lemma makedirs_files p : forall cur n' q,
    makedirs_from p cur = Ok n' ->
    file_at q n' = match lookup_opt q cur with
                   | Some (File d) => Some d
                   | _ => None
                   end.
Proof.
  unfold file_at.
  induction p as [|x p IH]; intros cur n' q Hm; simpl in Hm.
  - destruct cur as [[d|es]|]; try discriminate; injection Hm as <-;
      [reflexivity|]. destruct q; reflexivity.
  - destruct cur as [[d|es]|]; try discriminate.
    + destruct (makedirs_from p (entry x es)) as [c|e] eqn:Hc; simpl in Hm;
        [|discriminate].
      injection Hm as <-. destruct q as [|y q]; [reflexivity|].
      simpl. name_cases y x.
      * rewrite entry_set_eq, (IH _ _ _ Hc).
        destruct (entry x es); reflexivity.
      * rewrite entry_set_ne by congruence. reflexivity.
    + destruct (makedirs_from p None) as [c|e] eqn:Hc; simpl in Hm; [|discriminate].
      injection Hm as <-. destruct q as [|y q]; [reflexivity|].
      simpl. rewrite same_name_sym. name_cases y x; [|reflexivity].
      rewrite (IH _ _ _ Hc). reflexivity.
Qed.

Lemma makedirs_keeps p fs fs' q :
  makedirs p fs = Ok fs' -> is_prefix q p = false -> lookup q fs' = lookup q fs.
Proof.
  intros H Hq. apply makedirs_success in H as [_ H].
  exact (@makedirs_frame p (Some fs) fs' q H Hq).
Qed.

Lemma makedirs_file_at p fs fs' q :
  makedirs p fs = Ok fs' -> file_at q fs' = file_at q fs.
Proof.
  intros H. apply makedirs_success in H as [_ H].
  rewrite (@makedirs_files p (Some fs) fs' q H). reflexivity.
Qed.

End MakeDirs.

Section RemoveAndCopyTrees.

Lemma rmtree_frame p : forall n n' q,
    rmtree p n = Ok n' -> comparable q p = false -> lookup q n' = lookup q n.
Proof.
  unfold comparable.
  induction p as [|x p IH]; intros n n' q Hr Hq; [discriminate|].
  destruct q as [|y q]; [discriminate|].
  simpl in Hr. destruct n as [d|es]; [discriminate|].
  destruct (entry x es) as [c|] eqn:Hc; [|discriminate].
  simpl in Hq. rewrite (same_name_sym x y) in Hq.
  destruct p as [|z p].
  - destruct c; [discriminate|]. injection Hr as <-. simpl.
    name_cases y x.
    + simpl in Hq. rewrite orb_true_r in Hq. discriminate.
    + rewrite entry_remove_ne by congruence. reflexivity.
  - destruct (rmtree (z :: p) c) as [c'|e] eqn:Hrc; simpl in Hr; [|discriminate].
    injection Hr as <-. simpl. name_cases y x.
    + rewrite entry_set_eq, Hc. rewrite ?same_name_refl in Hq. simpl in Hq.
      eapply IH; eauto.
    + rewrite entry_set_ne by congruence. reflexivity.
Qed.

Lemma put_from_frame p : forall t cur n' q,
    put_from p t cur = Ok n' -> comparable q p = false ->
    lookup q n' = lookup_opt q cur.
Proof.
  unfold comparable.
  induction p as [|x p IH]; intros t cur n' q Hp Hq.
  - simpl in Hq. rewrite orb_true_r in Hq. discriminate.
  - destruct q as [|y q]; [discriminate|].
    simpl in Hq. rewrite (same_name_sym x y) in Hq. simpl in Hp.
    destruct cur as [[d|es]|]; try discriminate.
    + destruct (put_from p t (entry x es)) as [c|e] eqn:Hc; simpl in Hp;
        [|discriminate].
      injection Hp as <-. simpl. name_cases y x.
      * rewrite entry_set_eq. rewrite ?same_name_refl in Hq. simpl in Hq.
        rewrite (IH _ _ _ _ Hc Hq). destruct (entry x es); reflexivity.
      * rewrite entry_set_ne by congruence. reflexivity.
    + destruct (put_from p t None) as [c|e] eqn:Hc; simpl in Hp; [|discriminate].
      injection Hp as <-. simpl. rewrite same_name_sym. name_cases y x.
      * rewrite ?same_name_refl in Hq. simpl in Hq.
        rewrite (IH _ _ _ _ Hc Hq). reflexivity.
      * reflexivity.
Qed.

Lemma put_from_at p : forall t cur n',
    put_from p t cur = Ok n' -> lookup p n' = Some t.
Proof.
  induction p as [|x p IH]; intros t cur n' Hp; simpl in Hp.
  - destruct cur; [discriminate|]. injection Hp as <-. reflexivity.
  - destruct cur as [[d|es]|]; try discriminate.
    + destruct (put_from p t (entry x es)) as [c|e] eqn:Hc; simpl in Hp;
        [|discriminate].
      injection Hp as <-. simpl. rewrite entry_set_eq. eauto.
    + destruct (put_from p t None) as [c|e] eqn:Hc; simpl in Hp; [|discriminate].
      injection Hp as <-. simpl. rewrite same_name_refl. eauto.
Qed.

Lemma copytree_frame src dst fs fs' q :
  copytree src dst fs = Ok fs' -> comparable q dst = false ->
  lookup q fs' = lookup q fs.
Proof.
  unfold copytree. destruct src as [[d|es]|]; try discriminate.
  intros H Hq. apply (put_from_frame _ _ _ _ H Hq).
Qed.

Lemma copytree_at src dst fs fs' :
  copytree src dst fs = Ok fs' -> lookup dst fs' = src.
Proof.
  unfold copytree. destruct src as [[d|es]|]; try discriminate.
  apply put_from_at.
Qed.

End RemoveAndCopyTrees.

Section CopyFile.

Lemma is_prefix_app_r q p r : is_prefix q p = true -> is_prefix q (p ++ r) = true.
Proof.
  revert p. induction q as [|y q IH]; intros [|x p]; simpl; try discriminate; auto.
  destruct (same_name y x); simpl; [apply IH|discriminate].
Qed.

Lemma not_prefix_shorter q p r : is_prefix q (p ++ r) = false -> is_prefix q p = false.
Proof.
  intros H. destruct (is_prefix q p) eqn:E; [|reflexivity].
  rewrite (is_prefix_app_r _ _ r E) in H. discriminate.
Qed.

Lemma copy2_writes src name dst fs fs' :
  copy2 src name dst fs = Ok fs' ->
  exists data, src = Some (File data)
               /\ write_file (copy2_target name dst fs) data fs = Ok fs'.
Proof.
  unfold copy2, copy2_target. destruct src as [[data|es]|]; try discriminate.
  eauto.
Qed.

Lemma copy2_frame src name dst fs fs' q :
  copy2 src name dst fs = Ok fs' -> is_prefix q (dst ++ [name]) = false ->
  lookup q fs' = lookup q fs.
Proof.
  intros H Hq. destruct (copy2_writes _ _ _ _ H) as (data & _ & Hw).
  apply (write_file_frame _ _ _ _ Hw).
  unfold copy2_target. destruct (isdir dst fs); [exact Hq|].
  eapply not_prefix_shorter; eauto.
Qed.


(** Onto a place that is not a directory, inside a directory, [copy2]
    succeeds and leaves the source's content there. *)
Lemma copy2_ok data name par x fs :
  isdir par fs = true -> isdir (par ++ [x]) fs = false ->
  exists fs', copy2 (Some (File data)) name (par ++ [x]) fs = Ok fs'
              /\ lookup (par ++ [x]) fs' = Some (File data).
Proof.
  intros Hpar Hx. unfold copy2. rewrite Hx.
  destruct (write_file_ok _ _ data _ Hpar Hx) as (fs' & Hw).
  exists fs'. split; [exact Hw|]. eapply write_file_at; eauto.
Qed.

End CopyFile.

(** ** Running a long operation *)

Section WeakestPreconditions.

Context {A B : Type}.

Lemma wp_ret (a : A) Q s : Q (Ok a) s -> wp (ret a) Q s.
Proof. exact (fun H => H). Qed.

Lemma wp_raise (e : exn) (Q : result A -> state -> Prop) s :
  Q (Raise e) s -> wp (raise e) Q s.
Proof. exact (fun H => H). Qed.

Lemma wp_of_result (r : result A) Q s : Q r s -> wp (of_result r) Q s.
Proof. exact (fun H => H). Qed.

Lemma wp_query (f : node -> A) Q s : Q (Ok (f (disk s))) s -> wp (query f) Q s.
Proof. exact (fun H => H). Qed.

Lemma wp_bind (m : io A) (k : A -> io B) Q s :
  wp m (fun r s' => match r with
                    | Ok a => wp (k a) Q s'
                    | Raise e => Q (Raise e) s'
                    end) s ->
  wp (and_then m k) Q s.
Proof.
  unfold wp, and_then. destruct (m s) as [[a|e] s']; simpl; auto.
Qed.

Lemma wp_try (body : io A) (handler : exn -> io A) Q s :
  wp body (fun r s' => match r with
                       | Ok a => Q (Ok a) s'
                       | Raise e => wp (handler e) Q s'
                       end) s ->
  wp (try_catch body handler) Q s.
Proof.
  unfold wp, try_catch. destruct (body s) as [[a|e] s']; simpl; auto.
Qed.

Lemma wp_mono (m : io A) (Q Q' : result A -> state -> Prop) s :
  wp m Q s -> (forall r s', Q r s' -> Q' r s') -> wp m Q' s.
Proof. unfold wp. auto. Qed.

Lemma wp_run (m : io A) Q s r s' : wp m Q s -> m s = (r, s') -> Q r s'.
Proof. unfold wp. intros H E. rewrite E in H. exact H. Qed.

Lemma wp_elim (m : io A) (Q : result A -> state -> Prop) s :
  wp m Q s -> forall r s', m s = (r, s') -> Q r s'.
Proof. intros H r s' E. eapply wp_run; eauto. Qed.

Lemma wp_true (m : io A) s :
  wp m (fun r _ => match r with Ok _ => True | Raise _ => True end) s.
Proof. unfold wp. destruct (fst (m s)); exact I. Qed.

End WeakestPreconditions.

Section WeakestPreconditionsOfEffects.

Lemma wp_callback (cb : bool) msg pct sev (Q : result unit -> state -> Prop) s :
  Q (Ok tt)
    (State (disk s)
           (emitted s ++ (if cb then [Event msg pct sev] else @nil event))) ->
  wp (callback cb msg pct sev) Q s.
Proof.
  unfold wp, callback. destruct s as [d l], cb; simpl; auto.
  rewrite app_nil_r. auto.
Qed.

Lemma wp_on_disk f (Q : result unit -> state -> Prop) s :
  (forall d, f (disk s) = Ok d -> Q (Ok tt) (State d (emitted s))) ->
  (forall e, f (disk s) = Raise e -> Q (Raise e) s) ->
  wp (on_disk f) Q s.
Proof.
  unfold wp, on_disk. intros Hok Hraise.
  destruct (f (disk s)) as [d|e]; simpl; auto.
Qed.

(** A loop whose body keeps [I], and establishes [R] when it raises. *)
Lemma wp_for_each {A} (l : list A) (body : A -> io unit)
      (I : state -> Prop) (R : exn -> state -> Prop) s :
  I s ->
  (forall x s, In x l -> I s ->
               wp (body x) (fun r s' => match r with
                                        | Ok _ => I s'
                                        | Raise e => R e s'
                                        end) s) ->
  wp (for_each l body) (fun r s' => match r with
                                    | Ok _ => I s'
                                    | Raise e => R e s'
                                    end) s.
Proof.
  revert s. induction l as [|x l IH]; intros s Hs Hbody; simpl.
  - exact Hs.
  - apply wp_bind. eapply wp_mono; [apply (Hbody x s); [left; reflexivity|exact Hs]|].
    intros [[]|e] s' H; [|exact H].
    apply IH; [exact H|]. intros y s0 Hy. apply Hbody. right. exact Hy.
Qed.

End WeakestPreconditionsOfEffects.

Ltac wp_simpl := cbv beta iota zeta; cbn [disk emitted fst snd] in *.

Ltac wp_result :=
  match goal with
  | |- match ?r with Ok _ => _ | Raise _ => _ end => destruct r eqn:?
  end.

(** A loop with invariant [I], and [R] after an exception. *)
Ltac wp_loop I R :=
  eapply wp_mono;
  [apply (@wp_for_each _ _ _ I R)
  | intros [[]|?e] ?s' ?H; wp_simpl].

Ltac wp_step :=
  lazymatch goal with
  | |- wp (and_then _ _) _ _ => apply wp_bind
  | |- wp (ret _) _ _ => apply wp_ret
  | |- wp (raise _) _ _ => apply wp_raise
  | |- wp (callback _ _ _ _) _ _ => apply wp_callback
  | |- wp (of_result _) _ _ => apply wp_of_result
  | |- wp (query _) _ _ => apply wp_query
  | |- wp (try_catch _ _) _ _ => apply wp_try
  | |- wp (on_disk _) _ _ =>
      apply wp_on_disk; [intros ? ?Hdisk | intros ? ?Hraise]
  | |- wp (if ?b then _ else _) _ _ => destruct b eqn:?
  | |- wp (match ?x with _ => _ end) _ _ => destruct x eqn:?
  end; wp_simpl.

Section Downloads.

Variable scaled_progress : Z -> Z -> Z.
Variable megabytes : Z -> string.

Lemma receive_reports cb total : forall chunks downloaded s,
    exists downloaded',
      receive scaled_progress megabytes cb total downloaded chunks s
      = (Ok downloaded',
         State (disk s)
               (emitted s ++ reports scaled_progress megabytes cb total downloaded chunks)).
Proof.
  induction chunks as [|chunk rest IH]; intros downloaded s; simpl.
  - exists downloaded. rewrite app_nil_r. destruct s; reflexivity.
  - destruct (Nat.eqb chunk 0); [apply IH|].
    unfold and_then. destruct cb; cbn [andb].
    + destruct (total >? 0)%Z.
      * unfold callback.
        edestruct IH as (d' & ->). exists d'. cbn [disk emitted].
        rewrite <- app_assoc. reflexivity.
      * unfold ret. edestruct IH as (d' & ->). exists d'. reflexivity.
    + unfold ret. edestruct IH as (d' & ->). exists d'. reflexivity.
Qed.

Lemma wp_receive cb total chunks downloaded (Q : result Z -> state -> Prop) s :
  (forall d', Q (Ok d')
                (State (disk s)
                       (emitted s ++ reports scaled_progress megabytes cb total
                                             downloaded chunks))) ->
  wp (receive scaled_progress megabytes cb total downloaded chunks) Q s.
Proof.
  intros H. unfold wp.
  destruct (receive_reports cb total chunks downloaded s) as (d' & ->).
  apply H.
Qed.

Lemma reports_no_callback total : forall chunks downloaded,
  reports scaled_progress megabytes false total downloaded chunks = [].
Proof.
  induction chunks as [|c r IH]; intros d; simpl; [reflexivity|].
  destruct (Nat.eqb c 0); apply IH.
Qed.

(** Download and extraction leave the disk alone and emit a prefix of
    [fetch_log], all of it when they return the extracted tree. *)
Lemma wp_fetch label download cb (Q : result node -> state -> Prop) s :
  (forall r evs,
      (exists rest, fetch_log scaled_progress megabytes label download cb = evs ++ rest) ->
      match r with
      | Ok extract_path =>
          evs = fetch_log scaled_progress megabytes label download cb
          /\ exists r0 es,
            download = Answers r0 /\ archive r0 = Unzips es /\ extract_path = Dir es
      | Raise e => True
      end ->
      Q r (State (disk s) (emitted s ++ evs))) ->
  wp (fetch_and_extract scaled_progress megabytes label download cb) Q s.
Proof.
  intros H. unfold fetch_and_extract.
  assert (Hleaf : forall r evs l,
             l = emitted s ++ evs ->
             (exists rest, fetch_log scaled_progress megabytes label download cb
                           = evs ++ rest) ->
             match r with
             | Ok extract_path =>
                 evs = fetch_log scaled_progress megabytes label download cb
                 /\ exists r0 es,
                   download = Answers r0 /\ archive r0 = Unzips es
                   /\ extract_path = Dir es
             | Raise e => True
             end ->
             Q r (State (disk s) l)).
  { intros r evs l -> H1 H2. eapply H; eauto. }
  clear H. unfold fetch_log, progress_reports in Hleaf.
  destruct cb;
    repeat (first [apply wp_receive; intros ? | wp_step | wp_result]); subst;
    rewrite ?reports_no_callback, ?app_nil_r;
    repeat match goal with
           | E : advertised_size _ = _ |- _ => rewrite E in Hleaf; clear E
           end;
    (eapply Hleaf;
     [rewrite <- ?app_assoc; try reflexivity; symmetry; apply app_nil_r
     | eexists; rewrite <- ?app_assoc; reflexivity
     | first [exact I | split; [reflexivity | eauto 6]] ]).
Qed.

End Downloads.

(** ** Failures of the update executors *)

Section Failures.

Variable scaled_progress : Z -> Z -> Z.
Variable megabytes : Z -> string.

Lemma has_error_snoc l msg pct : has_error (l ++ [Event msg pct error]).
Proof.
  exists (Event msg pct error).
  split; [apply in_or_app; right; left|]; reflexivity.
Qed.

(** Every [except] clause emits an error event and returns a failure. *)
Lemma wp_handlers label e s :
  wp (handlers label true e)
     (fun r s' => exists msg,
          r = Ok (false, msg) /\ msg <> "" /\ has_error (emitted s')) s.
Proof.
  unfold handlers.
  destruct (kind e); repeat wp_step;
    (eexists; split; [reflexivity|]; split; [discriminate|apply has_error_snoc]).
Qed.

(** The Luma3DS executor never returns a failure without an error event. *)
Lemma luma_failure_reports_error drive download s : forall r s',
  download_and_inject_luma_update scaled_progress megabytes drive download true s
  = (r, s') ->
  exists ok msg, r = Ok (ok, msg) /\ msg <> ""
                 /\ (ok = false -> has_error (emitted s')).
Proof.
  apply wp_elim. unfold download_and_inject_luma_update.
  do 3 wp_step.
  apply wp_mono with
    (Q := fun r _ => match r with
                     | Ok a => a = (true, "Luma3DS update successful.")
                     | Raise _ => True
                     end).
  - wp_step. apply wp_fetch. intros [ex|e] evs _ _; wp_simpl; [|exact I].
    unfold copy_top_level, update_luma_config.
    repeat first [wp_step | wp_result
                 | wp_loop (fun _ : state => True) (fun (_ : exn) (_ : state) => True)];
      try exact I; try reflexivity; intros; apply wp_true.
  - intros [a|e] s' H.
    + subst a. exists true. eexists. split; [reflexivity|].
      split; [discriminate|]. discriminate.
    + eapply wp_mono; [apply wp_handlers|].
      cbv beta. intros r0 s0 (msg & -> & Hmsg & Herr).
      exists false, msg. auto.
Qed.

(** The GodMode9 executor returns a failure without an error event on one
    path only: the archive was extracted and holds no GodMode9.firm. *)
Lemma gm9_silent_failure drive download s : forall r s',
  download_and_inject_gm9_update scaled_progress megabytes drive download true s
  = (r, s') ->
  exists ok msg,
    r = Ok (ok, msg) /\ msg <> ""
    /\ (ok = false ->
        has_error (emitted s')
        \/ exists r0 es,
            download = Answers r0 /\ archive r0 = Unzips es
            /\ walk_find "GodMode9.firm" [] (Dir es) = None).
Proof.
  apply wp_elim. unfold download_and_inject_gm9_update.
  do 3 wp_step.
  apply wp_mono with
    (Q := fun r _ =>
            match r with
            | Ok a =>
                a = (true, "GodMode9 update successful.")
                \/ (a = (false,
                         "Error: 'GodMode9.firm' not found in the extracted GodMode9 archive.")
                    /\ exists r0 es,
                        download = Answers r0 /\ archive r0 = Unzips es
                        /\ walk_find "GodMode9.firm" [] (Dir es) = None)
            | Raise _ => True
            end).
  - wp_step. apply wp_fetch.
    intros [ex|e] evs _ Hex; wp_simpl; [|exact I].
    destruct Hex as (_ & r0 & es & -> & Harch & ->).
    repeat first [wp_step | wp_result
                 | wp_loop (fun _ : state => True) (fun (_ : exn) (_ : state) => True)];
      try exact I; try (left; reflexivity); try (intros; apply wp_true).
    right. split; [reflexivity|]. eauto.
  - intros [a|e] s' H.
    + destruct H as [->|(-> & Hmissing)].
      * exists true. eexists. split; [reflexivity|].
        split; discriminate.
      * exists false. eexists. split; [reflexivity|].
        split; [discriminate|]. intros _. right. exact Hmissing.
    + eapply wp_mono; [apply wp_handlers|].
      cbv beta. intros r0 s0 (msg & -> & Hmsg & Herr).
      exists false, msg. auto.
Qed.

End Failures.

(** C4, the failing input.  An archive that extracts well and holds no
    GodMode9.firm makes the GodMode9 executor return a failure with its
    message while every event it has emitted has severity info: no error
    event is emitted on that path. *)
Theorem gm9_missing_firm_no_error_event
        (scaled_progress : Z -> Z -> Z) (megabytes : Z -> string) :
  let download :=
    Answers (Response None [] None (Unzips [("README.md", File "GodMode9")])) in
  let device := Dir [("E:", Dir [])] in
  let run :=
    download_and_inject_gm9_update scaled_progress megabytes ["E:"] download true
      (State device []) in
  fst run
  = Ok (false, "Error: 'GodMode9.firm' not found in the extracted GodMode9 archive.")
  /\ map status (emitted (snd run)) = [info; info; info; info]
  /\ ~ has_error (emitted (snd run)).
Proof.
  cbv zeta. split; [reflexivity|]. split; [reflexivity|].
  intros (ev & Hin & Herr). cbn in Hin.
  repeat (destruct Hin as [<-|Hin]; [discriminate Herr|]). exact Hin.
Qed.

(** ** Order of the progress events *)

Section Ascending.

Lemma nondecreasing_cons x l :
  nondecreasing (x :: l) = true <->
  (match l with [] => True | y :: _ => (x <= y)%Z end) /\ nondecreasing l = true.
Proof.
  destruct l as [|y l]; simpl; [tauto|].
  rewrite andb_true_iff, Z.leb_le. tauto.
Qed.

Lemma ascending_nil k : ascending_to k [].
Proof. split; [reflexivity|constructor]. Qed.

Lemma ascending_weaken k k' l : ascending_to k l -> (k <= k')%Z -> ascending_to k' l.
Proof.
  intros [Hn Hb] Hk. split; [exact Hn|].
  eapply Forall_impl; [|exact Hb]. intros; cbv beta in *; lia.
Qed.

Lemma nondecreasing_app a b :
  nondecreasing a = true -> nondecreasing b = true ->
  (forall x y, In x a -> In y b -> (x <= y)%Z) ->
  nondecreasing (a ++ b) = true.
Proof.
  induction a as [|x a IH]; intros Ha Hb Hab; [exact Hb|].
  apply nondecreasing_cons in Ha as [Hhd Htl].
  cbn [app]. apply nondecreasing_cons. split.
  - destruct a as [|y a]; cbn [app].
    + destruct b as [|y b]; [exact I|]. apply Hab; left; reflexivity.
    + exact Hhd.
  - apply IH; auto. intros u v Hu Hv. apply Hab; [right|]; assumption.
Qed.

Lemma nondecreasing_prefix a b :
  nondecreasing (a ++ b) = true -> nondecreasing a = true.
Proof.
  induction a as [|x a IH]; intros H; [reflexivity|].
  cbn [app] in H. apply nondecreasing_cons in H as [Hhd Htl].
  apply nondecreasing_cons. split; [|auto].
  destruct a; [exact I|exact Hhd].
Qed.

Lemma ascending_app k k' a b :
  ascending_to k a -> nondecreasing b = true ->
  Forall (fun p => k <= p <= k')%Z b -> (k <= k')%Z ->
  ascending_to k' (a ++ b).
Proof.
  intros [Ha Hka] Hb Hkb Hk. split.
  - apply nondecreasing_app; auto.
    intros x y Hx Hy. rewrite Forall_forall in Hka, Hkb.
    specialize (Hka x Hx). specialize (Hkb y Hy). cbv beta in *. lia.
  - apply Forall_app. split; eapply Forall_impl; eauto; intros; cbv beta in *; lia.
Qed.

Lemma ascending_callback k l (cb : bool) msg pct sev :
  ascending_to k (percents l) -> (k <= pct)%Z ->
  ascending_to pct (percents (l ++ (if cb then [Event msg pct sev] else []))).
Proof.
  intros Hl Hk. unfold percents. rewrite map_app.
  apply ascending_app with (k := k); auto.
  - destruct cb; reflexivity.
  - destruct cb; repeat constructor; cbn; lia.
Qed.

End Ascending.

Section Monotone.

Variable scaled_progress : Z -> Z -> Z.
Variable megabytes : Z -> string.

Lemma fetch_log_band label download cb :
  download_in_band scaled_progress megabytes download ->
  let ps := percents (fetch_log scaled_progress megabytes label download cb) in
  nondecreasing ps = true /\ Forall (fun p => 10 <= p <= 70)%Z ps.
Proof.
  intros [Hn Hb]. unfold fetch_log. destruct cb; [|split; [reflexivity|constructor]].
  cbv zeta. unfold percents in *. rewrite !map_app. cbn [map percent app].
  split.
  - apply nondecreasing_cons. split.
    + destruct (map percent _) as [|p ps] eqn:E; cbn [app]; [lia|].
      inversion Hb; subst. lia.
    + apply nondecreasing_app; [exact Hn|reflexivity|].
      intros x y Hx Hy. rewrite Forall_forall in Hb. specialize (Hb x Hx).
      destruct Hy as [<-|[<-|[]]]; cbv beta in Hb; lia.
  - constructor; [lia|]. apply Forall_app. split.
    + eapply Forall_impl; [|exact Hb]. intros; cbv beta in *; lia.
    + repeat constructor; lia.
Qed.

Lemma fetch_prefix_ascending label download cb k l evs :
  download_in_band scaled_progress megabytes download ->
  (exists rest, fetch_log scaled_progress megabytes label download cb = evs ++ rest) ->
  ascending_to k (percents l) -> (k <= 10)%Z ->
  ascending_to 70 (percents (l ++ evs)).
Proof.
  intros Hband (rest & Hrest) Hl Hk.
  destruct (fetch_log_band label cb Hband) as [Hn Hb].
  cbv zeta in Hn, Hb. rewrite Hrest in Hn, Hb.
  unfold percents in *. rewrite map_app in *.
  apply ascending_app with (k := k); auto.
  - eapply nondecreasing_prefix; eauto.
  - apply Forall_app in Hb as [Hb _].
    eapply Forall_impl; [|exact Hb]. intros; cbv beta in *; lia.
  - lia.
Qed.

Ltac asc_exact :=
  lazymatch goal with
  | |- ascending_to _ (percents (_ ++ (if _ then [_] else []))) =>
      eapply ascending_callback; [asc_exact | cbn [percent]; try lia]
  | |- ascending_to _ (percents []) => apply (ascending_nil 0)
  | |- ascending_to _ (percents (_ ++ _)) =>
      eapply fetch_prefix_ascending; [eassumption | eassumption | asc_exact | try lia]
  | |- _ => eassumption
  end.

Ltac asc := cbn [emitted disk]; eapply ascending_weaken; [asc_exact | try lia].

Lemma wp_handlers_monotone label cb e s :
  ascending_to 100 (percents (emitted s)) ->
  wp (handlers label cb e) (fun r s' => monotone_until_error (emitted s')
        /\ (forall msg, r = Ok (true, msg) -> nondecreasing (percents (emitted s')) = true)) s.
Proof.
  intros [Hn _]. unfold handlers.
  destruct (kind e); repeat wp_step;
    (split; [|discriminate]);
    (eexists; eexists; split; [reflexivity|]; split; [exact Hn|]);
    (destruct cb; [right; eexists; reflexivity|left; reflexivity]).
Qed.

Lemma luma_monotone drive download cb fs : 
  download_in_band scaled_progress megabytes download ->
  forall r s',
  download_and_inject_luma_update scaled_progress megabytes drive download cb (State fs [])
  = (r, s') ->
  monotone_until_error (emitted s')
  /\ (forall msg, r = Ok (true, msg) -> nondecreasing (percents (emitted s')) = true).
Proof.
  intros Hband. apply wp_elim. unfold download_and_inject_luma_update.
  do 3 wp_step.
  apply wp_mono with
    (Q := fun _ s' => ascending_to 100 (percents (emitted s'))).
  - wp_step. apply wp_fetch. intros [ex|e] evs Hevs _; wp_simpl; [|asc].
    unfold copy_top_level, update_luma_config.
    repeat first [wp_step | wp_result
                 | wp_loop (fun s : state => ascending_to 85 (percents (emitted s)))
                           (fun (_ : exn) (s : state) =>
                              ascending_to 85 (percents (emitted s)))];
      try asc; try (intros; repeat wp_step; asc).
  - intros [v|exc] s1 Hasc.
    + split; [|intros _ _; apply Hasc].
      exists (emitted s1), []. rewrite app_nil_r. split; [reflexivity|].
      split; [apply Hasc|left; reflexivity].
    + apply wp_handlers_monotone. exact Hasc.
Qed.

Lemma gm9_monotone drive download cb fs : 
  download_in_band scaled_progress megabytes download ->
  forall r s',
  download_and_inject_gm9_update scaled_progress megabytes drive download cb (State fs [])
  = (r, s') ->
  monotone_until_error (emitted s')
  /\ (forall msg, r = Ok (true, msg) -> nondecreasing (percents (emitted s')) = true).
Proof.
  intros Hband. apply wp_elim. unfold download_and_inject_gm9_update.
  do 3 wp_step.
  apply wp_mono with
    (Q := fun _ s' => ascending_to 100 (percents (emitted s'))).
  - wp_step. apply wp_fetch. intros [ex|e] evs Hevs _; wp_simpl; [|asc].
    repeat first [wp_step | wp_result
                 | wp_loop (fun s : state => ascending_to 85 (percents (emitted s)))
                           (fun (_ : exn) (s : state) =>
                              ascending_to 85 (percents (emitted s)))];
      try asc; try (intros; unfold merge_item; repeat wp_step; asc).
  - intros [v|exc] s1 Hasc.
    + split; [|intros _ _; apply Hasc].
      exists (emitted s1), []. rewrite app_nil_r. split; [reflexivity|].
      split; [apply Hasc|left; reflexivity].
    + apply wp_handlers_monotone. exact Hasc.
Qed.

Lemma dump_file_monotone drive source dest cb fs : forall r s',
  dump_file drive source dest cb (State fs []) = (r, s') ->
  nondecreasing (percents (emitted s')) = true.
Proof.
  apply wp_elim. unfold dump_file. 
  repeat wp_step; destruct cb; reflexivity.
Qed.

End Monotone.

Section HonestDownloads.

Variable scaled_progress : Z -> Z -> Z.
Variable megabytes : Z -> string.

(** What holds of [int((d / t) * 50)] for [0 < d <= t]: it lies between 0
    and 50 and does not decrease with [d]. *)
Hypothesis scaled_in_range :
  forall d t, (0 < d <= t)%Z -> (0 <= scaled_progress d t <= 50)%Z.
Hypothesis scaled_monotone :
  forall d d' t, (0 < d <= d')%Z -> (d' <= t)%Z ->
                 (scaled_progress d t <= scaled_progress d' t)%Z.

Lemma reports_in_band total : forall chunks downloaded,
    (0 <= downloaded)%Z ->
    (downloaded + Z.of_nat (list_sum chunks) <= total)%Z ->
    let lo := if (0 <? downloaded)%Z
              then (scaled_progress downloaded total + 10)%Z else 10%Z in
    let ps := percents (reports scaled_progress megabytes true total downloaded chunks) in
    nondecreasing ps = true /\ Forall (fun p => lo <= p <= 60)%Z ps.
Proof.
  induction chunks as [|chunk rest IH]; intros d Hd Hsum; cbv zeta.
  - split; [reflexivity|constructor].
  - cbn [reports].
    change (list_sum (chunk :: rest)) with (chunk + list_sum rest)%nat in Hsum.
    destruct (Nat.eqb chunk 0) eqn:Hc.
    + apply Nat.eqb_eq in Hc. subst chunk. apply IH; [exact Hd|]. lia.
    + apply Nat.eqb_neq in Hc. cbn [andb].
      assert (Hd' : (0 < d + Z.of_nat chunk)%Z) by lia.
      assert (Hsum' : (d + Z.of_nat chunk + Z.of_nat (list_sum rest) <= total)%Z) by lia.
      destruct (IH (d + Z.of_nat chunk)%Z ltac:(lia) Hsum') as [Hn Hb].
      cbv zeta in Hn, Hb.
      replace (0 <? d + Z.of_nat chunk)%Z with true in Hb
        by (symmetry; apply Z.ltb_lt; exact Hd').
      destruct (total >? 0)%Z eqn:Ht.
      * unfold percents in *. cbn [app map percent].
        pose proof (scaled_in_range (d := d + Z.of_nat chunk) (t := total)) as Hr.
        assert (Hlo : ((if (0 <? d)%Z then scaled_progress d total + 10 else 10)
                       <= scaled_progress (d + Z.of_nat chunk) total + 10)%Z).
        { destruct (0 <? d)%Z eqn:E.
          - apply Z.ltb_lt in E.
            pose proof (@scaled_monotone d (d + Z.of_nat chunk)%Z total). lia.
          - lia. }
        split.
        -- apply nondecreasing_cons. split; [|exact Hn].
           destruct (map percent _) as [|p ps]; [exact I|].
           inversion Hb; subst. lia.
        -- constructor; [lia|].
           eapply Forall_impl; [|exact Hb]. intros; cbv beta in *; lia.
      * cbn [app]. split; [exact Hn|].
        eapply Forall_impl; [|exact Hb]. intros p Hp; cbv beta in *.
        destruct (0 <? d)%Z eqn:E; [|lia].
        apply Z.ltb_lt in E.
        pose proof (@scaled_monotone d (d + Z.of_nat chunk)%Z total). lia.
Qed.

(** A download whose chunks add up to no more than the advertised
    content length keeps its reports in the band. *)
Lemma honest_download_in_band r total :
  advertised_size r = Ok total ->
  (Z.of_nat (list_sum (body r)) <= total)%Z ->
  download_in_band scaled_progress megabytes (Answers r).
Proof.
  intros Hsize Hsum. unfold download_in_band, progress_reports. rewrite Hsize.
  apply (@reports_in_band total (body r) 0%Z); lia.
Qed.

End HonestDownloads.

(** C6, as stated, fails: a download that cannot connect makes the Luma3DS
    executor emit the percents 0, 10 and then 0 with the error event. *)
Lemma progress_drops_on_failure :
  ~ (forall scaled_progress megabytes drive download fs r s',
        download_in_band scaled_progress megabytes download ->
        download_and_inject_luma_update scaled_progress megabytes drive download
          true (State fs []) = (r, s') ->
        nondecreasing (percents (emitted s')) = true).
Proof.
  intros H.
  specialize (H (fun _ _ => 0%Z) (fun _ => "") ["E:"] (ConnectFails "timed out")
                (Dir []) _ _ (conj eq_refl (Forall_nil _)) eq_refl).
  vm_compute in H. discriminate H.
Qed.

(** C6, amended.  When the download reports keep to their band (they do
    when the bytes received never exceed the advertised content length),
    the percents an update executor emits never decrease before its last
    event, and never at all when it returns success; a run that an except
    clause ends closes with one error event at percent 0.  The percents of
    one call of [dump_file] never decrease. *)
Theorem progress_monotone_until_error
        (scaled_progress : Z -> Z -> Z) (megabytes : Z -> string)
        (drive : path) (download : http) (cb : bool) (fs : node) :
  download_in_band scaled_progress megabytes download ->
  (forall r s',
      download_and_inject_luma_update scaled_progress megabytes drive download cb
        (State fs []) = (r, s') ->
      monotone_until_error (emitted s')
      /\ (forall msg, r = Ok (true, msg) ->
                      nondecreasing (percents (emitted s')) = true))
  /\ (forall r s',
         download_and_inject_gm9_update scaled_progress megabytes drive download cb
           (State fs []) = (r, s') ->
         monotone_until_error (emitted s')
         /\ (forall msg, r = Ok (true, msg) ->
                         nondecreasing (percents (emitted s')) = true))
  /\ (forall source destination r s',
         dump_file drive source destination cb (State fs []) = (r, s') ->
         nondecreasing (percents (emitted s')) = true).
Proof.
  intros Hband. split; [|split].
  - apply luma_monotone. exact Hband.
  - apply gm9_monotone. exact Hband.
  - intros source destination. apply dump_file_monotone.
Qed.

Lemma progress_monotone_until_error_witness :
  let download := Answers (Response (Some "100") [40; 60] None BadZip) in
  let run :=
    download_and_inject_luma_update (fun d t => 50 * d / t)%Z (fun _ => "")
      ["E:"] download true (State (Dir [("E:", Dir [])]) []) in
  percents (emitted (snd run)) = [0; 10; 30; 60; 60; 0]%Z
  /\ monotone_until_error (emitted (snd run)).
Proof.
  cbv zeta. split; [reflexivity|].
  refine (proj1 (proj1 (@progress_monotone_until_error
                          (fun d t => 50 * d / t)%Z (fun _ => "") ["E:"]
                          (Answers (Response (Some "100") [40; 60] None BadZip))
                          true (Dir [("E:", Dir [])]) _) _ _ _)).
  - split; [reflexivity|]. repeat constructor; discriminate.
  - apply surjective_pairing.
Defined.

(** ** Optional and required files of the archives *)

Section DeviceFacts.

Lemma present_file p n :
  exists_ p n = true -> isdir p n = false -> exists data, lookup p n = Some (File data).
Proof.
  unfold exists_, isdir. destruct p as [|x p]; [discriminate|]. cbn [nonempty andb].
  destruct (lookup (x :: p) n) as [[data|es]|]; try discriminate.
  eauto.
Qed.

Lemma dir_prefix p : forall q n,
    dir_at p n = true -> is_prefix q p = true -> dir_at q n = true.
Proof.
  unfold dir_at.
  induction p as [|x p IH]; intros q n Hp Hq.
  - apply is_prefix_nil in Hq. subst q. exact Hp.
  - destruct q as [|y q]; simpl in *.
    + destruct n; [discriminate|reflexivity].
    + destruct n as [d|es]; [discriminate|].
      apply andb_prop in Hq as [Hyx Hq]. rewrite (entry_same _ _ Hyx).
      destruct (entry x es); [|discriminate]. eauto.
Qed.

Lemma isdir_prefix p : forall q n,
    isdir p n = true -> is_prefix q p = true -> q <> [] -> isdir q n = true.
Proof.
  intros q n Hp Hq Hne. rewrite isdir_dir_at in *.
  apply andb_prop in Hp as [_ Hp]. rewrite (dir_prefix _ _ _ Hp Hq).
  destruct q; [contradiction|reflexivity].
Qed.

Lemma prefixes_of_two p a b : forall q,
    is_prefix q (p ++ [a; b]) = true ->
    is_prefix q p = true \/ path_eqb q (p ++ [a]) = true
    \/ path_eqb q (p ++ [a; b]) = true.
Proof.
  induction p as [|x p IH]; intros q Hq.
  - destruct q as [|y [|z [|w q]]]; simpl in *; auto.
  - destruct q as [|y q]; [left; reflexivity|]. simpl in Hq.
    apply andb_prop in Hq as [Hyx Hq].
    simpl. rewrite Hyx. simpl.
    destruct (IH q Hq) as [H|[H|H]]; auto.
Qed.

Lemma dir_not_file q n : dir_at q n = true -> file_at q n = None.
Proof. unfold dir_at, file_at. destruct (lookup q n) as [[d|es]|]; auto; discriminate. Qed.

Lemma isdir_not_file q n : isdir q n = true -> file_at q n = None.
Proof.
  rewrite isdir_dir_at. intros H. apply andb_prop in H as [_ H]. apply dir_not_file, H.
Qed.

Lemma file_at_same p q n : path_eqb p q = true -> file_at p n = file_at q n.
Proof. intros H. unfold file_at. rewrite (lookup_same _ _ n H). reflexivity. Qed.

(** [makedirs] of two levels below a directory succeeds when neither level
    is a regular file. *)
Lemma makedirs_two p a b fs :
  isdir p fs = true -> file_at (p ++ [a]) fs = None -> file_at (p ++ [a; b]) fs = None ->
  exists fs', makedirs (p ++ [a; b]) fs = Ok fs'.
Proof.
  intros Hp Ha Hb.
  assert (H : exists fs', makedirs_from (p ++ [a; b]) (Some fs) = Ok fs').
  { apply makedirs_ok. intros q d Hq Hfile.
    assert (Hq' : file_at q fs = Some d)
      by (unfold file_at; simpl in Hfile; rewrite Hfile; reflexivity).
    rewrite isdir_dir_at in Hp. apply andb_prop in Hp as [_ Hp].
    destruct (@prefixes_of_two _ _ _ _ Hq) as [H|[H|H]].
    - rewrite (@dir_not_file _ _ (@dir_prefix _ _ _ Hp H)) in Hq'. discriminate.
    - rewrite (file_at_same _ _ fs H) in Hq'. congruence.
    - rewrite (file_at_same _ _ fs H) in Hq'. congruence. }
  unfold makedirs. destruct (p ++ [a; b]) eqn:E; [|exact H].
  destruct p; discriminate.
Qed.

Lemma copy2_file_ok src ex data name par x fs :
  lookup src ex = Some (File data) ->
  isdir par fs = true -> isdir (par ++ [x]) fs = false ->
  exists fs',
    copy2 (lookup src ex) name (par ++ [x]) fs = Ok fs'
    /\ (forall q, isdir q fs' = isdir q fs)
    /\ (forall q, path_eqb q (par ++ [x]) = false -> file_at q fs' = file_at q fs)
    /\ lookup (par ++ [x]) fs' = Some (File data).
Proof.
  intros Hsrc Hpar Hx. rewrite Hsrc. unfold copy2. rewrite Hx.
  destruct (@write_file_ok _ _ data _ Hpar Hx) as (fs' & Hw).
  exists fs'. split; [exact Hw|]. split; [|split].
  - intros q. eapply write_file_isdir; eauto.
  - intros q Hq. eapply write_file_others; eauto.
  - eapply write_file_at; eauto.
Qed.

End DeviceFacts.

Section LumaSucceeds.

Variable scaled_progress : Z -> Z -> Z.
Variable megabytes : Z -> string.

Lemma wp_on_disk_ok f d (Q : result unit -> state -> Prop) s :
  f (disk s) = Ok d -> Q (Ok tt) (State d (emitted s)) -> wp (on_disk f) Q s.
Proof. intros Hf HQ. unfold wp, on_disk. rewrite Hf. exact HQ. Qed.

Lemma wp_fetch_ok label r0 es total cb (Q : result node -> state -> Prop) s :
  advertised_size r0 = Ok total -> broken r0 = None -> archive r0 = Unzips es ->
  Q (Ok (Dir es))
    (State (disk s)
           (emitted s ++ fetch_log scaled_progress megabytes label (Answers r0) cb)) ->
  wp (fetch_and_extract scaled_progress megabytes label (Answers r0) cb) Q s.
Proof.
  intros Hsize Hbroken Harch HQ. unfold fetch_and_extract.
  do 4 wp_step. rewrite Hsize, Hbroken, Harch.
  repeat (first [apply wp_receive; intros ? | wp_step]).
  unfold fetch_log, progress_reports in HQ. rewrite Hsize in HQ.
  destruct cb.
  - rewrite <- !app_assoc. exact HQ.
  - rewrite reports_no_callback, !app_nil_r in *. exact HQ.
Qed.

Lemma wp_copy_top_level ex root name pct (cb : bool) (Q : result unit -> state -> Prop) s :
  isdir root (disk s) = true -> isdir (root ++ [name]) (disk s) = false ->
  isdir [name] ex = false ->
  (forall d,
      (forall q, isdir q d = isdir q (disk s)) ->
      (forall q, path_eqb q (root ++ [name]) = false ->
                 file_at q d = file_at q (disk s)) ->
      Q (Ok tt) (State d (emitted s ++ (if cb then [top_level_event ex name pct] else [])))) ->
  wp (copy_top_level ex root name pct cb) Q s.
Proof.
  intros Hroot Hdst Hsrc HQ. unfold copy_top_level, top_level_event in *.
  destruct (exists_ [name] ex) eqn:Hpresent.
  - destruct (@present_file _ _ Hpresent Hsrc) as (data & Hdata).
    destruct (@copy2_file_ok _ _ _ name _ _ _ Hdata Hroot Hdst)
      as (fs' & Hc & Hd & Hf & _).
    wp_step. wp_step. eapply wp_on_disk_ok; [exact Hc|]. wp_simpl.
    apply HQ; auto.
  - wp_step. apply (HQ (disk s)); auto.
Qed.

Lemma wp_update_luma_config ex cfg (cb : bool) (Q : result unit -> state -> Prop) s :
  (exists fs', makedirs cfg (disk s) = Ok fs') ->
  (forall item,
      isfile ["luma"; "config"; item] ex = true -> isdir (cfg ++ [item]) (disk s) = false) ->
  (forall d, Q (Ok tt) (State d (emitted s ++ (if cb then [config_event ex] else [])))) ->
  wp (update_luma_config ex cfg cb) Q s.
Proof.
  intros (fs1 & Hmk) Hitems HQ. unfold update_luma_config, config_event in *.
  destruct (isdir ["luma"; "config"] ex) eqn:Hsrc; [|wp_step; apply HQ].
  wp_step. wp_step. wp_step. eapply wp_on_disk_ok; [exact Hmk|]. wp_simpl.
  wp_step. wp_step. wp_result.
  - wp_loop (fun s' : state =>
               emitted s' = emitted s ++ (if cb then [config_event ex] else [])
               /\ isdir cfg (disk s') = true
               /\ forall item, isfile ["luma"; "config"; item] ex = true ->
                               isdir (cfg ++ [item]) (disk s') = false)
            (fun (_ : exn) (_ : state) => False).
    + cbn [emitted disk]. unfold config_event. rewrite Hsrc.
      split; [reflexivity|]. split; [eapply makedirs_isdir_self; exact Hmk|].
      intros item Hitem. rewrite isdir_at.
      rewrite (@makedirs_keeps _ _ _ (cfg ++ [item]) Hmk).
      * apply Hitems in Hitem. rewrite isdir_at in Hitem. exact Hitem.
      * rewrite <- (app_nil_r cfg) at 2. rewrite is_prefix_app. reflexivity.
    + intros item s0 _ (Hlog & Hcfg & Hfree). wp_simpl.
      change (["luma"; "config"] ++ [item]) with ["luma"; "config"; item].
      destruct (isfile ["luma"; "config"; item] ex) eqn:Hfile.
      * assert (Hdata : exists data, lookup ["luma"; "config"; item] ex = Some (File data)).
        { unfold isfile in Hfile. cbn [nonempty andb] in Hfile.
          destruct (lookup _ ex) as [[data|?]|]; try discriminate. eauto. }
        destruct Hdata as (data & Hdata).
        destruct (@copy2_file_ok _ _ _ item _ _ _ Hdata Hcfg (Hfree item Hfile))
          as (fs' & Hc & Hd & _ & _).
        eapply wp_on_disk_ok; [exact Hc|]. wp_simpl.
        split; [exact Hlog|]. split; [rewrite Hd; exact Hcfg|].
        intros item' Hitem'. rewrite Hd. auto.
      * wp_step. auto.
    + destruct H as (Hlog & _). destruct s'. cbn [emitted disk] in *. subst.
      unfold config_event. rewrite Hsrc. apply HQ.
    + destruct H.
  - unfold listdir in Heqr. unfold isdir in Hsrc. cbn [nonempty andb] in Hsrc.
    destruct (lookup ["luma"; "config"] ex) as [[?|?]|]; discriminate.
Qed.

(** With a device and an archive in order the Luma3DS executor succeeds,
    and [luma_log] is all it emits. *)
Lemma luma_succeeds drive r0 es total (cb : bool) fs :
  advertised_size r0 = Ok total -> broken r0 = None -> archive r0 = Unzips es ->
  luma_ready drive (Dir es) fs ->
  forall r s',
    download_and_inject_luma_update scaled_progress megabytes drive (Answers r0) cb
      (State fs []) = (r, s') ->
    r = Ok (true, "Luma3DS update successful.")
    /\ emitted s' = if cb then luma_log scaled_progress megabytes (Answers r0) (Dir es) else [].
Proof.
  intros Hsize Hbroken Harch (Hroot & Hfirm & H3dsx & Hluma & Hcfg & Hitems & Hsf & Hs3).
  apply wp_elim. unfold download_and_inject_luma_update.
  do 4 wp_step. eapply wp_fetch_ok; eauto. wp_simpl.
  wp_step. apply wp_copy_top_level; auto. intros d1 Hd1 Hf1. wp_simpl.
  wp_step. apply wp_copy_top_level; cbn [disk]; rewrite ?Hd1; auto.
  intros d2 Hd2 Hf2. wp_simpl.
  assert (Hkeep : forall q, path_eqb q (drive ++ ["boot.firm"]) = false ->
                            path_eqb q (drive ++ ["boot.3dsx"]) = false ->
                            file_at q d2 = file_at q fs).
  { intros q H1 H2. rewrite Hf2, Hf1; auto. }
  wp_step. apply wp_update_luma_config; cbn [disk].
  - apply makedirs_two.
    + rewrite Hd2, Hd1. exact Hroot.
    + rewrite Hkeep; [exact Hluma| |]; rewrite path_eqb_app; reflexivity.
    + rewrite Hkeep; [exact Hcfg| |]; rewrite path_eqb_app; reflexivity.
  - intros item Hitem. rewrite <- app_assoc. cbn [app].
    rewrite Hd2, Hd1. auto.
  - intros d3. wp_simpl. do 3 wp_step.
    split; [reflexivity|]. unfold luma_log. destruct cb; [|reflexivity].
    rewrite <- !app_assoc. reflexivity.
Qed.

End LumaSucceeds.

Section MissingFirm.

Variable scaled_progress : Z -> Z -> Z.
Variable megabytes : Z -> string.

Lemma reports_info cb total : forall chunks downloaded,
    Forall (fun ev => status ev = info)
           (reports scaled_progress megabytes cb total downloaded chunks).
Proof.
  induction chunks as [|c r IH]; intros d; simpl; [constructor|].
  destruct (Nat.eqb c 0); [apply IH|].
  apply Forall_app. split; [|apply IH].
  destruct (cb && (total >? 0)%Z); repeat constructor.
Qed.

Lemma fetch_log_quiet label download cb :
  Forall (quiet (download_in_band scaled_progress megabytes download))
         (fetch_log scaled_progress megabytes label download cb).
Proof.
  apply Forall_forall. intros ev Hev. split.
  - assert (Hinfo : Forall (fun ev => status ev = info)
                           (fetch_log scaled_progress megabytes label download cb)).
    { unfold fetch_log. destruct cb; [|constructor].
      constructor; [reflexivity|]. apply Forall_app. split; [|repeat constructor].
      unfold progress_reports. destruct download as [e|r]; [constructor|].
      destruct (advertised_size r); [apply reports_info|constructor]. }
    rewrite Forall_forall in Hinfo. rewrite (Hinfo ev Hev). discriminate.
  - intros Hband. destruct (fetch_log_band label cb Hband) as [_ Hb].
    cbv zeta in Hb. unfold percents in Hb. rewrite Forall_map, Forall_forall in Hb.
    specialize (Hb ev Hev). cbv beta in Hb. lia.
Qed.

Lemma quiet_callback band l (cb : bool) msg pct sev :
  Forall (quiet band) l -> sev <> success -> (pct < 100)%Z ->
  Forall (quiet band) (l ++ (if cb then [Event msg pct sev] else [])).
Proof.
  intros Hl Hsev Hpct. apply Forall_app. split; [exact Hl|].
  destruct cb; repeat constructor; cbn; auto.
Qed.

Lemma gm9_without_firm drive r0 es cb fs :
  archive r0 = Unzips es -> walk_find "GodMode9.firm" [] (Dir es) = None ->
  forall r s',
    download_and_inject_gm9_update scaled_progress megabytes drive (Answers r0) cb
      (State fs []) = (r, s') ->
    (exists msg, r = Ok (false, msg))
    /\ Forall (quiet (download_in_band scaled_progress megabytes (Answers r0)))
              (emitted s').
Proof.
  intros Harch Hfind. apply wp_elim. unfold download_and_inject_gm9_update.
  do 3 wp_step.
  set (band := download_in_band scaled_progress megabytes (Answers r0)).
  assert (H0 : Forall (quiet band)
                 ([] ++ (if cb then [Event "Starting GodMode9 update process..." 0 info]
                         else []))).
  { apply quiet_callback; [constructor|discriminate|lia]. }
  apply wp_mono with
    (Q := fun r s' => Forall (quiet band) (emitted s')
                      /\ match r with
                         | Ok a => fst a = false
                         | Raise _ => True
                         end).
  - wp_step. apply wp_fetch. intros [ex|e] evs (rest & Hrest) Hex; wp_simpl.
    + destruct Hex as (_ & r1 & es1 & [= <-] & Harch1 & ->).
      rewrite Harch in Harch1. injection Harch1 as <-.
      assert (H1 : Forall (quiet band)
                     (([] ++ (if cb then [Event "Starting GodMode9 update process..." 0 info]
                              else [])) ++ evs)).
      { apply Forall_app. split; [exact H0|].
        pose proof (fetch_log_quiet "GodMode9" (Answers r0) cb) as Hq.
        rewrite Hrest in Hq. apply Forall_app in Hq. apply Hq. }
      rewrite Hfind. repeat wp_step; auto.
    + split; [|exact I]. apply Forall_app. split; [exact H0|].
      pose proof (fetch_log_quiet "GodMode9" (Answers r0) cb) as Hq.
      rewrite Hrest in Hq. apply Forall_app in Hq. apply Hq.
  - intros [v|exc] s1 [Hq Hv].
    + split; [|exact Hq]. destruct v as [ok msg]. simpl in Hv. subst ok. eauto.
    + unfold handlers.
      destruct (kind exc); repeat wp_step;
        (split; [eauto|apply quiet_callback; [exact Hq|discriminate|lia]]).
Qed.

End MissingFirm.

(** Component A: on a device and an archive in order (see [luma_ready])
    the Luma3DS update returns success and ends with the 100% success event
    whether or not the optional top-level files are in the archive, and it
    emits a warning event for boot.firm, and for boot.3dsx, when that file
    is absent.  Component B: when GodMode9.firm is nowhere in the extracted
    tree the GodMode9 update returns a failure; it emits no success event,
    and no event at 100% as long as the download reports keep to their
    band. *)
Theorem optional_files_warn_required_file_fails
        (scaled_progress : Z -> Z -> Z) (megabytes : Z -> string)
        (drive : path) (r0 : response) (es : list (string * node)) (fs : node) :
  archive r0 = Unzips es ->
  (forall total,
      advertised_size r0 = Ok total -> broken r0 = None ->
      luma_ready drive (Dir es) fs ->
      forall r s',
        download_and_inject_luma_update scaled_progress megabytes drive (Answers r0)
          true (State fs []) = (r, s') ->
        r = Ok (true, "Luma3DS update successful.")
        /\ (exists before,
               emitted s'
               = before ++ [Event "Luma3DS files successfully copied." 100 success])
        /\ (exists_ ["boot.firm"] (Dir es) = false ->
            In (Event "Warning: 'boot.firm' not found in extracted Luma archive."
                      75 warning) (emitted s'))
        /\ (exists_ ["boot.3dsx"] (Dir es) = false ->
            In (Event "Warning: 'boot.3dsx' not found in extracted Luma archive."
                      80 warning) (emitted s')))
  /\ (walk_find "GodMode9.firm" [] (Dir es) = None ->
      forall cb r s',
        download_and_inject_gm9_update scaled_progress megabytes drive (Answers r0)
          cb (State fs []) = (r, s') ->
        (exists msg, r = Ok (false, msg))
        /\ Forall (fun ev => status ev <> success) (emitted s')
        /\ (download_in_band scaled_progress megabytes (Answers r0) ->
            Forall (fun ev => percent ev < 100)%Z (emitted s'))).
Proof.
  intros Harch. split.
  - intros total Hsize Hbroken Hready r s' Hrun.
    destruct (@luma_succeeds scaled_progress megabytes drive r0 es total true fs
                             Hsize Hbroken Harch Hready r s' Hrun) as [-> Hlog].
    rewrite Hlog. unfold luma_log. split; [reflexivity|]. split; [|split].
    + eexists ([_] ++ fetch_log _ _ _ _ _ ++ [_; _; _]).
      rewrite <- !app_assoc. reflexivity.
    + intros Habsent. apply in_or_app. right. apply in_or_app. right.
      left. unfold top_level_event. rewrite Habsent. reflexivity.
    + intros Habsent. apply in_or_app. right. apply in_or_app. right.
      right. left. unfold top_level_event. rewrite Habsent. reflexivity.
  - intros Hfind cb r s' Hrun.
    destruct (@gm9_without_firm scaled_progress megabytes drive r0 es cb fs
                                Harch Hfind r s' Hrun) as [Hfail Hquiet].
    split; [exact Hfail|]. split.
    + eapply Forall_impl; [|exact Hquiet]. intros ev [H _]. exact H.
    + intros Hband. eapply Forall_impl; [|exact Hquiet]. intros ev [_ H]. auto.
Qed.

Lemma optional_files_warn_required_file_fails_witness :
  let archive :=
    [("boot.firm", File "new firm");
     ("luma", Dir [("config", Dir [("default.ini", File "cfg")])])] in
  let device := Dir [("E:", Dir [("boot.firm", File "old firm")])] in
  let run :=
    download_and_inject_luma_update (fun d t => 50 * d / t)%Z (fun _ => "") ["E:"]
      (Answers (Response (Some "100") [100] None (Unzips archive))) true
      (State device []) in
  fst run = Ok (true, "Luma3DS update successful.")
  /\ In (Event "Warning: 'boot.3dsx' not found in extracted Luma archive." 80 warning)
        (emitted (snd run))
  /\ file_at ["E:"; "boot.firm"] (disk (snd run)) = Some "new firm"
  /\ file_at ["E:"; "luma"; "config"; "default.ini"] (disk (snd run)) = Some "cfg".
Proof.
  cbv zeta.
  set (archive := [("boot.firm", File "new firm");
                   ("luma", Dir [("config", Dir [("default.ini", File "cfg")])])]).
  set (device := Dir [("E:", Dir [("boot.firm", File "old firm")])]).
  set (answer := Response (Some "100") [100] None (Unzips archive)).
  assert (Hready : luma_ready ["E:"] (Dir archive) device).
  { repeat split; try reflexivity; intros item _; reflexivity. }
  destruct (proj1 (@optional_files_warn_required_file_fails
                     (fun d t => 50 * d / t)%Z (fun _ => "") ["E:"]
                     answer archive device eq_refl)
                  100%Z eq_refl eq_refl Hready _ _ (surjective_pairing _))
    as (Hr & _ & _ & Hw).
  split; [exact Hr|]. split; [apply Hw; reflexivity|]. split; reflexivity.
Defined.

(** C5, the failing input.  The download percent is not clamped to its
    band: a reply that advertises 100 bytes and delivers 180 is reported at
    [int((180 / 100) * 50) + 10], which is 100.  With GodMode9.firm nowhere
    in the archive the GodMode9 update then returns its failure, after an
    event at 100%. *)
Theorem gm9_failure_after_event_at_100
        (scaled_progress : Z -> Z -> Z) (megabytes : Z -> string) :
  scaled_progress 180%Z 100%Z = 90%Z ->
  let download :=
    Answers (Response (Some "100") [180] None
                      (Unzips [("README.md", File "GodMode9")])) in
  let device := Dir [("E:", Dir [])] in
  let run :=
    download_and_inject_gm9_update scaled_progress megabytes ["E:"] download true
      (State device []) in
  fst run
  = Ok (false, "Error: 'GodMode9.firm' not found in the extracted GodMode9 archive.")
  /\ In (Event ("Downloaded: " ++ megabytes 180%Z ++ " MB of " ++ megabytes 100%Z ++ " MB")
               100 info) (emitted (snd run))
  /\ percents (emitted (snd run)) = [0; 10; 100; 60; 70]%Z
  /\ walk_find "GodMode9.firm" [] (Dir [("README.md", File "GodMode9")]) = None.
Proof.
  intros Hscaled. cbv zeta. split; [reflexivity|].
  split; [|split; [|reflexivity]].
  - right. right. left. vm_compute. rewrite Hscaled. reflexivity.
  - vm_compute. rewrite Hscaled. reflexivity.
Qed.

Lemma gm9_failure_after_event_at_100_witness :
  let run :=
    download_and_inject_gm9_update (fun d t => 50 * d / t)%Z (fun _ => "") ["E:"]
      (Answers (Response (Some "100") [180] None
                         (Unzips [("README.md", File "GodMode9")])))
      true (State (Dir [("E:", Dir [])]) []) in
  (exists message, fst run = Ok (false, message))
  /\ percents (emitted (snd run)) = [0; 10; 100; 60; 70]%Z.
Proof.
  cbv zeta.
  destruct (@gm9_failure_after_event_at_100 (fun d t => 50 * d / t)%Z (fun _ => "")
                                            eq_refl)
    as (Hfails & _ & Hpercents & _).
  split; [eexists; exact Hfails|exact Hpercents].
Defined.

(** ** The merge of the gm9 folder *)

Section Merge.

Variable scaled_progress : Z -> Z -> Z.
Variable megabytes : Z -> string.

(** What one turn of the merge loop leaves alone: every path that neither
    contains nor lies under the item's destination. *)
Lemma merge_item_frame ex src dest cb item q s :
  comparable q (dest ++ [item]) = false ->
  wp (merge_item ex src dest cb item)
     (fun _ s' => lookup q (disk s') = lookup q (disk s)) s.
Proof.
  intros Hq. unfold merge_item.
  assert (Hq' : is_prefix q ((dest ++ [item]) ++ [item]) = false).
  { unfold comparable in Hq. apply orb_false_elim in Hq as [H1 H2].
    destruct (is_prefix q ((dest ++ [item]) ++ [item])) eqn:E; [|reflexivity].
    rewrite (@is_prefix_longer _ _ _ _ H1 E) in H2. discriminate. }
  repeat wp_step; try reflexivity.
  - rewrite (@copytree_frame _ _ _ _ _ Hdisk0 Hq). eapply rmtree_frame; eauto.
  - eapply rmtree_frame; eauto.
  - eapply copytree_frame; eauto.
  - eapply copy2_frame; eauto.
Qed.

Lemma wp_conj {A} (m : io A) (Q1 Q2 : result A -> state -> Prop) s :
  wp m Q1 s -> wp m Q2 s -> wp m (fun r s' => Q1 r s' /\ Q2 r s') s.
Proof. unfold wp. auto. Qed.

Lemma wp_forall {A X} (m : io A) (Q : X -> result A -> state -> Prop) s :
  (forall x, wp m (Q x) s) -> wp m (fun r s' => forall x, Q x r s') s.
Proof. unfold wp. auto. Qed.

Ltac frame_side :=
  rewrite <- ?app_assoc; cbn [app];
  rewrite ?is_prefix_app, ?comparable_app; reflexivity.

Ltac frames :=
  repeat match goal with
    | H : makedirs _ _ = Ok ?d |- context [lookup ?q ?d] =>
        rewrite (@makedirs_keeps _ _ _ q H) by frame_side
    | H : copy2 _ _ _ _ = Ok ?d |- context [lookup ?q ?d] =>
        rewrite (@copy2_frame _ _ _ _ _ q H) by frame_side
    end.

Lemma scripts_apart drive item :
  same_name item "scripts" = false ->
  comparable (drive ++ ["gm9"; "scripts"]) ((drive ++ ["gm9"]) ++ [item]) = false.
Proof.
  intros E. rewrite <- app_assoc. cbn [app]. rewrite comparable_app.
  unfold comparable. cbn [is_prefix]. rewrite same_name_refl.
  rewrite (same_name_sym "scripts" item), E. reflexivity.
Qed.

Lemma wp_handlers_disk label cb e (P : node -> Prop) s :
  P (disk s) -> wp (handlers label cb e) (fun _ s' => P (disk s')) s.
Proof.
  intros H. unfold handlers. destruct (kind e); repeat wp_step; exact H.
Qed.

(** The scripts directory of the device is out of reach of the update,
    when the archive brings no scripts folder under another case. *)
Lemma gm9_scripts_untouched drive download cb s :
  scripts_plain download ->
  forall r s',
    download_and_inject_gm9_update scaled_progress megabytes drive download cb s
    = (r, s') ->
    lookup (drive ++ ["gm9"; "scripts"]) (disk s')
    = lookup (drive ++ ["gm9"; "scripts"]) (disk s).
Proof.
  intros Hplain. apply wp_elim. unfold download_and_inject_gm9_update.
  set (q := drive ++ ["gm9"; "scripts"]).
  do 3 wp_step.
  apply wp_mono with (Q := fun _ s' => lookup q (disk s') = lookup q (disk s)).
  - wp_step. apply wp_fetch. intros [ex|e] evs _ Hex; wp_simpl; [|reflexivity].
    destruct Hex as (_ & r0 & es & Hdown & Harch & ->).
    repeat first
           [wp_step | wp_result
           | wp_loop (fun s' : state => lookup q (disk s') = lookup q (disk s))
                     (fun (_ : exn) (s' : state) => lookup q (disk s') = lookup q (disk s))];
      subst q; cbn [disk emitted]; frames; try reflexivity; try assumption.
    all: intros item s1 Hin Hs1.
    all: destruct (String.eqb item "scripts") eqn:E;
      [unfold merge_item; rewrite E; wp_step; exact Hs1|].
    all: assert (E' : same_name item "scripts" = false)
      by (destruct (same_name item "scripts") eqn:E'; [|reflexivity];
          rewrite (Hplain r0 es _ item Hdown Harch Heqr Hin E') in E; discriminate).
    all: eapply wp_mono;
      [apply (@merge_item_frame (Dir es) ["gm9"] (drive ++ ["gm9"]) cb item
                                (drive ++ ["gm9"; "scripts"]) s1
                                (@scripts_apart drive item E'))
      |cbv beta; intros [[]|?] s2 H2; rewrite H2; exact Hs1].
  - intros [v|exc] s1 H1; [exact H1|].
    apply (@wp_handlers_disk "GodMode9" cb exc (fun d => lookup q d = lookup q (disk s)) s1 H1).
Qed.

Lemma merge_item_frames ex src dest cb item s :
  wp (merge_item ex src dest cb item)
     (fun _ s' => forall q, comparable q (dest ++ [item]) = false ->
                            lookup q (disk s') = lookup q (disk s)) s.
Proof.
  apply wp_forall with (Q := fun q _ s' => comparable q (dest ++ [item]) = false ->
                                           lookup q (disk s') = lookup q (disk s)).
  intros q. unfold wp. intros Hq. apply (@merge_item_frame ex src dest cb item q s Hq).
Qed.

Lemma lookup_app p : forall q n,
    lookup (p ++ q) n = match lookup p n with
                        | Some c => lookup q c
                        | None => None
                        end.
Proof.
  induction p as [|x p IH]; intros q n; [reflexivity|].
  cbn [app lookup]. destruct n as [d|es]; [reflexivity|].
  destruct (entry x es); [apply IH|reflexivity].
Qed.

(** An entry that a name reaches is listed, under that name or under
    another case of it. *)
Lemma entry_in x es n :
  entry x es = Some n -> exists k, In k (map fst es) /\ same_name k x = true.
Proof.
  induction es as [|[k m] r IH]; simpl; [discriminate|].
  destruct (same_name k x) eqn:E.
  - intros _. exists k. auto.
  - intros H. destruct (IH H) as (k' & Hin & Hk'). exists k'. auto.
Qed.

Lemma listed p ex names item :
  listdir p ex = Ok names -> exists_ (p ++ [item]) ex = true ->
  exists k, In k names /\ same_name k item = true.
Proof.
  unfold listdir. rewrite exists_at, lookup_app.
  destruct (lookup p ex) as [[d|es]|]; try discriminate.
  intros [= <-]. cbn [lookup].
  destruct (entry item es) as [c|] eqn:E; [|discriminate].
  intros _. eapply entry_in; eauto.
Qed.

Lemma child_of_dir p ex item :
  exists_ (p ++ [item]) ex = true -> dir_at p ex = true.
Proof.
  unfold dir_at. rewrite exists_at, lookup_app.
  destruct (lookup p ex) as [[d|es]|]; try discriminate; reflexivity.
Qed.

End Merge.

(** C1, the failing input.  The loop skips the child of the archive's gm9
    folder only when its name is 'scripts' letter for letter.  On a card,
    whose volume folds case, a child named 'Scripts' is the user's
    gm9/scripts: the update returns success without the skipping event, and
    what the device holds at gm9/scripts is the archive's directory, the
    user's file being gone. *)
Theorem gm9_update_replaces_scripts_of_other_case
        (scaled_progress : Z -> Z -> Z) (megabytes : Z -> string) :
  let download :=
    Answers (Response None [] None
               (Unzips [("GodMode9.firm", File "payload");
                        ("gm9", Dir [("Scripts",
                                      Dir [("shipped.gm9", File "shipped")])])])) in
  let device :=
    Dir [("E:", Dir [("gm9", Dir [("scripts", Dir [("mine.gm9", File "user")])])])] in
  let run :=
    download_and_inject_gm9_update scaled_progress megabytes ["E:"] download true
      (State device []) in
  fst run = Ok (true, "GodMode9 update successful.")
  /\ lookup ["E:"; "gm9"; "scripts"] device = Some (Dir [("mine.gm9", File "user")])
  /\ lookup ["E:"; "gm9"; "scripts"] (disk (snd run))
     = Some (Dir [("shipped.gm9", File "shipped")])
  /\ file_at ["E:"; "gm9"; "scripts"; "mine.gm9"] (disk (snd run)) = None
  /\ ~ In (Event "Skipping gm9/scripts folder..." 85 info) (emitted (snd run)).
Proof.
  cbv zeta. repeat (split; [reflexivity|]).
  intros Hin. cbn in Hin.
  repeat (destruct Hin as [Hin|Hin]; [discriminate Hin|]). exact Hin.
Qed.


(** ** The dump batch *)

Section DumpBatch.

Variables half_way full_way : nat -> nat -> Z.
Variables drive target : path.

















(** The folder is made outside the [try] of [dump_file]: when it
    cannot be made, the first attempt raises and the worker ends there. *)
Lemma thread_stops_without_folder file rest e s :
  makedirs target (disk s) = Raise e ->
  fst (_run_dump_in_thread half_way full_way drive target (file :: rest) s) = Raise e.
Proof.
  intros Hmk. unfold _run_dump_in_thread. cbn [dump_loop].
  unfold and_then at 1 2 3, callback at 1, dump_file, and_then at 1, on_disk.
  cbn [disk]. rewrite Hmk. reflexivity.
Qed.

End DumpBatch.







